(** * Burrows-Wheeler transform of [bwt_processor.py]: model and properties

    The development follows the class [BWTProcessor]: every method is
    embedded as a function of the same name, and so are the functions of
    [performance_demo.py] and [genomic_analysis.py] that compute a value.
    Python values are modelled as follows.

    - [str] is a list of characters (8-bit [ascii] characters stand for
      Python's code points); characters compare by code point, and strings
      compare lexicographically, as Python's [<] does.  The sentinel ["$"]
      is code point 36: the symbols below it (space, ["!"], ["#"], ...)
      are ordinary symbols of a text, and no proof assumes that the
      sentinel is the smallest symbol.
    - [int] is [Z].
    - A call either returns a value, raises an exception, or (for the one
      [while] loop of the class) runs out of fuel: the type [result].
    - [dict] is stdpp's [gmap]; [list] is [list], with Python's indexing
      (negative indices count from the end, out of range raises
      [IndexError]). *)

From Stdlib Require Import ZArith Ascii String.
From stdpp Require Import base decidable option list sorting gmap strings.

Local Open Scope Z_scope.

(** ** Outcomes of a call *)

Inductive exn : Type :=
| ValueError
| KeyError
| IndexError
| ZeroDivisionError.

Inductive result (A : Type) : Type :=
| Ok (a : A)
| Raise (e : exn)
| OutOfFuel.

Arguments Ok {A} a.
Arguments Raise {A} e.
Arguments OutOfFuel {A}.

#[global] Instance result_ret : MRet result := λ A a, Ok a.

#[global] Instance result_bind : MBind result := λ A B f m,
  match m with
  | Ok a => f a
  | Raise e => Raise e
  | OutOfFuel => OutOfFuel
  end.

(** A [for] loop whose body may raise: the state is threaded through the
    elements from left to right. *)
Fixpoint for_each {A St : Type} (l : list A) (body : St → A → result St) (s : St)
  : result St :=
  match l with
  | [] => Ok s
  | x :: l' => s' ← body s x; for_each l' body s'
  end.

(** ** Python strings, lists and dictionaries *)

Abbreviation str := (list ascii).

(** A literal. *)
Definition py (s : string) : str := list_ascii_of_string s.

(** [a < b] on characters: comparison of code points. *)
Definition char_ltb (a b : ascii) : bool := (N_of_ascii a <? N_of_ascii b)%N.

(** [s < t] on strings: the first differing character decides, a proper
    prefix is smaller. *)
Fixpoint str_ltb (s t : str) : bool :=
  match s, t with
  | _, [] => false
  | [], _ :: _ => true
  | a :: s', b :: t' =>
      char_ltb a b || (bool_decide (a = b) && str_ltb s' t')
  end.

(** [sorted(l)]: Python's sort is a stable merge sort that only asks
    whether [y < x]; [x] stays before [y] unless [y < x]. *)
Definition not_gt {A : Type} (ltb : A → A → bool) : relation A :=
  λ x y, ltb y x = false.

#[global] Instance not_gt_dec {A : Type} (ltb : A → A → bool) (x y : A) :
  Decision (not_gt ltb x y) := bool_eq_dec (ltb y x) false.

Definition sorted {A : Type} (ltb : A → A → bool) (l : list A) : list A :=
  merge_sort (not_gt ltb) l.

(** [range(a, b)]. *)
Definition py_range (a b : Z) : list Z :=
  (λ k : nat, a + Z.of_nat k) <$> seq 0 (Z.to_nat (b - a)).

(** [len(l)]. *)
Definition len {A : Type} (l : list A) : Z := Z.of_nat (length l).

(** [enumerate(l)]. *)
Definition enumerate {A : Type} (l : list A) : list (Z * A) :=
  zip (py_range 0 (len l)) l.

(** [l[i]]. *)
Definition py_getitem {A : Type} (l : list A) (i : Z) : result A :=
  let j := if decide (i < 0) then i + len l else i in
  if decide (j < 0) then Raise IndexError
  else match l !! Z.to_nat j with
       | Some x => Ok x
       | None => Raise IndexError
       end.

(** [l[i] = v]. *)
Definition py_setitem {A : Type} (l : list A) (i : Z) (v : A) : result (list A) :=
  let j := if decide (i < 0) then i + len l else i in
  if decide (0 ≤ j < len l) then Ok (<[Z.to_nat j := v]> l)
  else Raise IndexError.

(** [d[k]]. *)
Definition dict_getitem {V : Type} (d : gmap ascii V) (k : ascii) : result V :=
  match d !! k with
  | Some v => Ok v
  | None => Raise KeyError
  end.

(** [l.index(x)]. *)
Definition py_index (l : str) (x : ascii) : result Z :=
  match list_find (λ y, y = x) l with
  | Some (i, _) => Ok (Z.of_nat i)
  | None => Raise ValueError
  end.

(** [s.rstrip(c)] for a one-character argument. *)
Fixpoint lstrip (s : str) (c : ascii) : str :=
  match s with
  | [] => []
  | a :: s' => if decide (a = c) then lstrip s' c else s
  end.

Definition rstrip (s : str) (c : ascii) : str := reverse (lstrip (reverse s) c).

(** ** The transform *)

Definition cyclic_rotations (text : str) : list str :=
  let S := text ++ ["$"%char] in
  let n := length S in
  (λ i : nat, drop i S ++ take i S) <$> seq 0 n.

Definition lexsort_list (text_list : list str) : list str :=
  sorted str_ltb text_list.

Definition bwt (text : str) : result str :=
  let rotations := cyclic_rotations text in
  let sorted_rotations := lexsort_list rotations in
  mapM (λ rotation, py_getitem rotation (-1)) sorted_rotations.

Definition last_to_first_string (bwt_string : str) : str :=
  sorted char_ltb bwt_string.

(** ** LF and FL mappings *)

(** The loop [occ[ch] = occ.get(ch, 0) + 1; rank.append(occ[ch])]. *)
Definition occ_step (st : gmap ascii Z * list Z) (ch : ascii)
  : gmap ascii Z * list Z :=
  let k := default 0 (st.1 !! ch) + 1 in
  (<[ch := k]> st.1, st.2 ++ [k]).

(** The loop [if ch not in first_pos: first_pos[ch] = i]. *)
Definition first_pos_step (fp : gmap ascii Z) (ich : Z * ascii) : gmap ascii Z :=
  match fp !! ich.2 with
  | None => <[ich.2 := ich.1]> fp
  | Some _ => fp
  end.

Definition last_to_first_index (bwt_string : str) : result (list Z) :=
  let first_string := last_to_first_string bwt_string in
  let '(occ_L, rank_L) := foldl occ_step (∅, []) bwt_string in
  let first_pos := foldl first_pos_step ∅ (enumerate first_string) in
  for_each (enumerate bwt_string)
    (λ index '(i, ch),
       k ← py_getitem rank_L i;
       fp ← dict_getitem first_pos ch;
       let j := fp + (k - 1) in
       mret (index ++ [j]))
    [].

(** The loop [occ[ch] = occ.get(ch, 0) + 1; rank[i] = occ[ch]]. *)
Definition occ_set_step (st : gmap ascii Z * list Z) (ich : Z * ascii)
  : result (gmap ascii Z * list Z) :=
  let k := default 0 (st.1 !! ich.2) + 1 in
  rank ← py_setitem st.2 ich.1 k;
  mret (<[ich.2 := k]> st.1, rank).

(** The loop [pos_lists.setdefault(ch, []).append(i)]. *)
Definition pos_lists_step (pl : gmap ascii (list Z)) (ich : Z * ascii)
  : gmap ascii (list Z) :=
  <[ich.2 := default [] (pl !! ich.2) ++ [ich.1]]> pl.

Definition first_to_last_index (bwt_string : str) : result (list Z) :=
  let first_string := last_to_first_string bwt_string in
  let n := length bwt_string in
  '(occ_L, rank_L) ← for_each (enumerate bwt_string) occ_set_step (∅, replicate n 0);
  let pos_lists_L := foldl pos_lists_step ∅ (enumerate bwt_string) in
  '(occ_F, rank_F) ← for_each (enumerate first_string) occ_set_step (∅, replicate n 0);
  for_each (enumerate first_string)
    (λ index '(i, ch),
       k ← py_getitem rank_F i;
       ps ← dict_getitem pos_lists_L ch;
       p ← py_getitem ps (k - 1);
       py_setitem index i p)
    (replicate n 0).

(** ** Inversion *)

Definition invert_bwt (bwt_string : str) : result str :=
  let L := bwt_string in
  let n := len L in
  next_row ← last_to_first_index L;
  j ← py_index L "$"%char;
  '(output, _) ← for_each (py_range 0 n)
    (λ '(output, j) _,
       c ← py_getitem L j;
       j' ← py_getitem next_row j;
       mret (output ++ [c], j'))
    ([], j);
  mret (rstrip (reverse output) "$"%char).

(** ** Backward search *)

(** The list comprehension
    [[i for i in range(top, bottom + 1) if lastcol[i] == symbol]]. *)
Definition current_positions (lastcol_str : str) (symbol : ascii)
    (top_pointer bottom_pointer : Z) : result (list Z) :=
  for_each (py_range top_pointer (bottom_pointer + 1))
    (λ acc i,
       c ← py_getitem lastcol_str i;
       mret (if decide (c = symbol) then acc ++ [i] else acc))
    [].

(** The [while] loop of [bw_matching]; [fuel] bounds the number of
    iterations. *)
Fixpoint bw_while (fuel : nat) (lastcol_str : str) (last_to_first_idx : list Z)
    (top_pointer bottom_pointer : Z) (pattern : str) : result Z :=
  match fuel with
  | O => OutOfFuel
  | S fuel' =>
      if decide (top_pointer ≤ bottom_pointer) then
        if decide (pattern ≠ []) then
          symbol ← py_getitem pattern (-1);
          let pattern' := take (Z.to_nat (len pattern - 1)) pattern in
          positions ← current_positions lastcol_str symbol top_pointer bottom_pointer;
          if decide (positions = []) then Ok 0
          else
            p0 ← py_getitem positions 0;
            top' ← py_getitem last_to_first_idx p0;
            p1 ← py_getitem positions (-1);
            bottom' ← py_getitem last_to_first_idx p1;
            bw_while fuel' lastcol_str last_to_first_idx top' bottom' pattern'
        else Ok (bottom_pointer - top_pointer + 1)
      else Ok 0
  end.

Definition bw_matching (firstcol_str lastcol_str pattern : str)
    (last_to_first_idx : list Z) : result Z :=
  bw_while (S (length pattern)) lastcol_str last_to_first_idx
    0 (len lastcol_str - 1) pattern.

Definition bwa_search (text_string pattern : str) : result Z :=
  bwt_string ← bwt text_string;
  let first_col := last_to_first_string bwt_string in
  last_to_first_idx ← last_to_first_index bwt_string;
  bw_matching first_col bwt_string pattern last_to_first_idx.

(** The naive count of [benchmark_search_methods]:
    [sum(1 for i in range(len(text) - len(pattern) + 1)
         if text[i:i+len(pattern)] == pattern)]. *)
Definition naive_count (text pattern : str) : Z :=
  len (filter
         (λ i : Z, take (length pattern) (drop (Z.to_nat i) text) = pattern)
         (py_range 0 (len text - len pattern + 1))).

(** ** Compression statistics *)

(** [count_runs], the local function of [analyze_compression]. *)
Definition count_runs (s : str) : result Z :=
  if decide (s = []) then Ok 0
  else
    for_each (py_range 1 (len s))
      (λ runs i,
         a ← py_getitem s i;
         b ← py_getitem s (i - 1);
         mret (if decide (a ≠ b) then runs + 1 else runs))
      1.

(** [Counter(s)]: the counts of the symbols, kept in the order in which the
    symbols first occur, which is the order of [counter.values()]. *)
Fixpoint counter_add (c : ascii) (m : list (ascii * Z)) : list (ascii * Z) :=
  match m with
  | [] => [(c, 1)]
  | (k, v) :: m' =>
      if decide (k = c) then (k, v + 1) :: m' else (k, v) :: counter_add c m'
  end.

Definition Counter (s : str) : list (ascii * Z) :=
  foldl (λ m c, counter_add c m) [] s.

(** Python's floating-point numbers are not modelled: the type and the
    operations that [analyze_compression] uses are parameters. *)
Section floats.
Context {float : Type}.
(** [a / b] on integers, for [b] other than 0. *)
Variable fdiv : Z → Z → float.
(** [math.log2(p)], for [p > 0]. *)
Variable flog2 : float → float.
(** [p * q] and [p - q]. *)
Variable fmul : float → float → float.
Variable fsub : float → float → float.
(** Conversion of an integer operand. *)
Variable float_of_int : Z → float.
(** [p > 0]. *)
Variable fpos : float → bool.

(** A number is an [int] or a [float]. *)
Inductive pynum : Type :=
| PyInt (z : Z)
| PyFloat (f : float).

(** [a / b]. *)
Definition py_truediv (a b : Z) : result float :=
  if decide (b = 0) then Raise ZeroDivisionError else Ok (fdiv a b).

(** [math.log2(p)]. *)
Definition py_log2 (p : float) : result float :=
  if fpos p then Ok (flog2 p) else Raise ValueError.

(** [x - y]. *)
Definition py_sub (x y : pynum) : pynum :=
  match x, y with
  | PyInt a, PyInt b => PyInt (a - b)
  | PyInt a, PyFloat g => PyFloat (fsub (float_of_int a) g)
  | PyFloat f, PyInt b => PyFloat (fsub f (float_of_int b))
  | PyFloat f, PyFloat g => PyFloat (fsub f g)
  end.

(** [calculate_entropy], the local function of [analyze_compression]. *)
Definition calculate_entropy (s : str) : result pynum :=
  if decide (s = []) then Ok (PyInt 0)
  else
    let counter := Counter s in
    let length := len s in
    for_each counter.*2
      (λ entropy count,
         p ← py_truediv count length;
         if fpos p then
           l ← py_log2 p;
           mret (py_sub entropy (PyFloat (fmul p l)))
         else mret entropy)
      (PyInt 0).

(** The dictionary that [analyze_compression] returns. *)
Record stats : Type := {
  original_length : Z;
  bwt_length : Z;
  original_runs : Z;
  bwt_runs : Z;
  run_reduction_ratio : pynum;
  original_entropy : pynum;
  bwt_entropy : pynum;
  entropy_reduction : pynum
}.

Definition analyze_compression (text : str) : result stats :=
  bwt_result ← bwt text;
  original_runs ← count_runs text;
  bwt_runs ← count_runs bwt_result;
  original_entropy ← calculate_entropy text;
  bwt_entropy ← calculate_entropy bwt_result;
  ratio ← (if decide (original_runs > 0)
           then q ← py_truediv bwt_runs original_runs; mret (PyFloat q)
           else mret (PyInt 0));
  mret {| original_length := len text;
          bwt_length := len bwt_result;
          original_runs := original_runs;
          bwt_runs := bwt_runs;
          run_reduction_ratio := ratio;
          original_entropy := original_entropy;
          bwt_entropy := bwt_entropy;
          entropy_reduction := py_sub original_entropy bwt_entropy |}.

End floats.

Arguments PyInt {float} z.
Arguments PyFloat {float} f.

(** ** The benchmark of the class and the callers in the scripts *)

(** [a // b] and [a % b] on integers: the quotient is rounded down and the
    remainder has the sign of [b], as [Z.div] and [Z.modulo] do. *)
Definition py_floordiv (a b : Z) : result Z :=
  if decide (b = 0) then Raise ZeroDivisionError else Ok (a / b).

Definition py_mod (a b : Z) : result Z :=
  if decide (b = 0) then Raise ZeroDivisionError else Ok (a mod b).

(** [s * n]: no copy at all for [n <= 0]. *)
Definition py_str_mul (s : str) (n : Z) : str :=
  concat (replicate (Z.to_nat n) s).

(** [s[:k]]: a negative [k] counts from the end. *)
Definition py_slice_to (s : str) (k : Z) : str :=
  let k' := if decide (k < 0) then Z.max 0 (k + len s) else k in
  take (Z.to_nat k') s.

(** [generate_repetitive_dna] of [performance_demo.py]. *)
Definition generate_repetitive_dna (length : Z) (repeat_unit : str) : result str :=
  full_repeats ← py_floordiv length (len repeat_unit);
  remainder ← py_mod length (len repeat_unit);
  let sequence := py_str_mul repeat_unit full_repeats in
  mret (if decide (remainder > 0)
        then sequence ++ py_slice_to repeat_unit remainder
        else sequence).

(** [s.count(c)] for a one-character [c]. *)
Definition str_count (s : str) (c : ascii) : Z :=
  len (filter (λ y, y = c) s).

(** [d[k]] on a dictionary kept as the list of its items, in insertion
    order. *)
Fixpoint alist_getitem {V : Type} (d : list (ascii * V)) (k : ascii) : result V :=
  match d with
  | [] => Raise KeyError
  | (k', v) :: d' => if decide (k' = k) then Ok v else alist_getitem d' k
  end.

(** [sum(l)]. *)
Definition py_sum (l : list Z) : Z := foldl Z.add 0 l.

Section floats_callers.
Context {float : Type}.
Variable fdiv : Z → Z → float.
Variable flog2 : float → float.
Variable fmul : float → float → float.
Variable fsub : float → float → float.
Variable float_of_int : Z → float.
Variable fpos : float → bool.
(** [time.time()]: the reading of the clock at the [k]-th call made by
    [benchmark_search_methods]. *)
Variable time_time : nat → float.

(** [benchmark_search_methods]: the two durations and the two counts. *)
Definition benchmark_search_methods (text pattern : str)
  : result (float * float * Z * Z) :=
  let start_time := time_time 0 in
  bwt_count ← bwa_search text pattern;
  let bwt_time := fsub (time_time 1) start_time in
  let start_time := time_time 2 in
  let naive_count := naive_count text pattern in
  let naive_time := fsub (time_time 3) start_time in
  mret (bwt_time, naive_time, bwt_count, naive_count).

(** [analyze_genomic_sequence] of [genomic_analysis.py], without what it
    prints: the base counts, the percentage of each base (computed for the
    printout only), the GC content and the compression statistics, which
    are the value returned.  The parameter [name] is only printed. *)
Definition analyze_genomic_sequence (sequence : str) : result (@stats float) :=
  let base_counts := (λ base, (base, str_count sequence base)) <$> py "ATCG" in
  let total_bases := py_sum base_counts.*2 in
  percentages ← for_each base_counts
    (λ shown '(base, count),
       percentage ← (if decide (total_bases > 0)
                     then q ← py_truediv fdiv count total_bases;
                          mret (PyFloat (fmul q (float_of_int 100)))
                     else mret (PyInt 0));
       mret (shown ++ [percentage]))
    [];
  g ← alist_getitem base_counts "G"%char;
  c ← alist_getitem base_counts "C"%char;
  q ← py_truediv fdiv (g + c) total_bases;
  let gc_content := fmul q (float_of_int 100) in
  analyze_compression fdiv flog2 fmul fsub float_of_int fpos sequence.

End floats_callers.

(** [s[a:b]]: negative bounds count from the end, bounds beyond the ends
    are cut, and an empty range gives the empty string. *)
Definition py_slice (s : str) (a b : Z) : str :=
  let norm := λ i, if decide (i < 0) then Z.max 0 (i + len s) else Z.min i (len s) in
  take (Z.to_nat (norm b - norm a)) (drop (Z.to_nat (norm a)) s).

(** [l.remove(x)]: the first occurrence goes, and there must be one. *)
Fixpoint list_remove (l : str) (x : ascii) : result str :=
  match l with
  | [] => Raise ValueError
  | a :: l' => if decide (a = x) then Ok l' else l'' ← list_remove l' x; mret (a :: l'')
  end.

(** The module [random] is a generator whose state every draw advances.
    The generator and its three draws are parameters; [random.randint]
    and [random.choice] raise on an empty range and an empty sequence. *)
Section random.
Context {rng float : Type}.
Variable randint : rng → Z → Z → Z * rng.
Variable random : rng → float * rng.
Variable choice : rng → str → ascii * rng.
(** [x < y] on floating-point numbers. *)
Variable flt : float → float → bool.

Definition py_randint (g : rng) (a b : Z) : result (Z * rng) :=
  if decide (a ≤ b) then Ok (randint g a b) else Raise ValueError.

Definition py_choice (g : rng) (l : str) : result (ascii * rng) :=
  if decide (l = []) then Raise IndexError else Ok (choice g l).

(** The inner loop of [simulate_genomic_reads]: sequencing errors. *)
Definition introduce_errors (error_rate : float) (read : str) (g : rng)
  : result (str * rng) :=
  for_each (py_range 0 (len read))
    (λ '(read_list, g) i,
       let '(x, g) := random g in
       if flt x error_rate then
         let bases := py "ATCG" in
         c ← py_getitem read_list i;
         bases ← list_remove bases c;
         '(b, g) ← py_choice g bases;
         read_list ← py_setitem read_list i b;
         mret (read_list, g)
       else mret (read_list, g))
    (read, g).

(** [simulate_genomic_reads] of [genomic_analysis.py]. *)
Definition simulate_genomic_reads (reference : str) (num_reads read_length : Z)
    (error_rate : float) (g : rng) : result (list str * rng) :=
  let ref_length := len reference in
  for_each (py_range 0 num_reads)
    (λ '(reads, g) _,
       '(start_pos, g) ← py_randint g 0 (Z.max 0 (ref_length - read_length));
       let read := py_slice reference start_pos (start_pos + read_length) in
       if decide (len read = read_length) then
         '(read_list, g) ← introduce_errors error_rate read g;
         mret (reads ++ [read_list], g)
       else mret (reads, g))
    ([], g).

End random.

(** A generator without state, to run the functions on examples: it draws
    the least integer of a range, a fixed number, and the first element of
    a sequence. *)
Definition least_randint (g : unit) (a b : Z) : Z * unit := (a, g).

Definition fixed_random (x : Z) (g : unit) : Z * unit := (x, g).

Definition first_choice (g : unit) (l : str) : ascii * unit :=
  (default "A"%char (head l), g).

(** Number of maximal runs of equal symbols, by recursion on the string. *)
Fixpoint runs_spec (s : str) : nat :=
  match s with
  | [] => 0%nat
  | a :: s' =>
      match s' with
      | [] => 1%nat
      | b :: _ => ((if decide (a = b) then 0 else 1) + runs_spec s')%nat
      end
  end.

(** ** Notions used to state and prove the properties *)

(** Number of elements of [l] that satisfy [p]. *)
Fixpoint count {A : Type} (p : A → bool) (l : list A) : nat :=
  match l with
  | [] => 0%nat
  | x :: l' => ((if p x then 1 else 0) + count p l')%nat
  end.

(** The value that the LF-mapping takes at a position [i] holding [c]: the
    number of symbols of [L] smaller than [c], plus the number of
    occurrences of [c] before [i]. *)
Definition lt_than {A : Type} (ltb : A → A → bool) (c : A) : A → bool :=
  λ y, ltb y c.

Definition eq_to {A : Type} `{EqDecision A} (c : A) : A → bool :=
  λ y, bool_decide (y = c).

Definition lf_at {A : Type} `{EqDecision A} (ltb : A → A → bool)
    (L : list A) (i : nat) (c : A) : nat :=
  (count (lt_than ltb c) L + count (eq_to c) (take i L))%nat.

(** The LF-mapping of [L] as a list of Python integers. *)
Definition lf_list (L : str) : list Z :=
  imap (λ i c, Z.of_nat (lf_at char_ltb L i c)) L.

(** The row reached from row [r] after [t] steps along a mapping [LF]:
    [r], [LF[r]], [LF[LF[r]]], ... *)
Definition lf_chain (LF : list Z) (r t : nat) : nat :=
  Nat.iter t (λ j, Z.to_nat (default 0 (LF !! j))) r.

(** The symbols of [L] read at the first [n] rows of that chain. *)
Definition chain_symbols (L : str) (LF : list Z) (r n : nat) : str :=
  (λ t, default "$"%char (L !! lf_chain LF r t)) <$> seq 0 n.

(** What the proofs need of [<]: a strict total order. *)
Record strict_total {A : Type} (ltb : A → A → bool) : Prop := {
  st_irrefl : ∀ x, ltb x x = false;
  st_trans : ∀ x y z, ltb x y = true → ltb y z = true → ltb x z = true;
  st_tricho : ∀ x y, ltb x y = false → ltb y x = false → x = y
}.

(** The [i]-th cyclic rotation, [S[i:] + S[:i]]. *)
Definition rot (T : str) (i : nat) : str := drop i T ++ take i T.

(** Rotation by one symbol to the right: the last symbol moves in front. *)
Definition rotr1 (x : str) : str :=
  drop (length x - 1)%nat x ++ take (length x - 1)%nat x.

(** Last and first symbol of a rotation. *)
Definition lastc (x : str) : ascii := default "$"%char (last x).

Definition headc (x : str) : ascii := default "$"%char (head x).

(** The sorted rotation table of [text]. *)
Definition rows (text : str) : list str :=
  lexsort_list (cyclic_rotations text).

(** [pattern] is read at the start of [x], going round the end of [x]. *)
Fixpoint cyc_match (pattern : str) (x : str) : bool :=
  match pattern with
  | [] => true
  | c :: pattern' => bool_decide (head x = Some c) && cyc_match pattern' (rot x 1)
  end.

(** The positions of [c] in [l], in increasing order, counted from [k]. *)
Fixpoint positions_from (k : nat) (c : ascii) (l : str) : list Z :=
  match l with
  | [] => []
  | a :: l' =>
      (if decide (a = c) then [Z.of_nat k] else []) ++ positions_from (S k) c l'
  end.

(** The rows that start with [Q] are the rows [t .. b] of the table. *)
Definition search_inv (text Q : str) (t b : nat) : Prop :=
  (t ≤ b < length (rows text))%nat ∧
  ∀ r x, rows text !! r = Some x → (cyc_match Q x = true ↔ (t ≤ r ≤ b)%nat).

(** The positions in rows [t .. b] of the last column that hold [c]. *)
Definition range_positions (L : str) (c : ascii) (t b : nat) : list nat :=
  filter (λ i, L !! i = Some c) (seq t (S b - t)).

(** * Properties *)

(** ** The result monad and loops *)

Lemma bind_Ok {A B : Type} (f : A → result B) (a : A) : (Ok a ≫= f) = f a.
Proof. reflexivity. Qed.

Lemma bind_Ok_inv {A B : Type} (f : A → result B) (m : result A) (b : B) :
  (m ≫= f) = Ok b → ∃ a, m = Ok a ∧ f a = Ok b.
Proof. destruct m as [a| |]; simpl; [eauto | discriminate..]. Qed.

(** The invariant rule for a [for] loop whose body may raise. *)
Lemma for_each_inv {A St : Type} (l : list A) (body : St → A → result St)
    (Inv : nat → St → Prop) (s0 : St) :
  Inv 0%nat s0 →
  (∀ i a s, l !! i = Some a → Inv i s → ∃ s', body s a = Ok s' ∧ Inv (S i) s') →
  ∃ s', for_each l body s0 = Ok s' ∧ Inv (length l) s'.
Proof.
  revert Inv s0. induction l as [|x l IH]; intros Inv s0 H0 Hstep.
  - exists s0. split; [reflexivity | exact H0].
  - destruct (Hstep 0%nat x s0 eq_refl H0) as (s1 & Hb & H1).
    destruct (IH (λ i, Inv (S i)) s1 H1) as (s' & Hf & Hl).
    { intros i a s Hi Hinv. exact (Hstep (S i) a s Hi Hinv). }
    exists s'. split; [|exact Hl]. simpl. rewrite Hb. exact Hf.
Qed.

(** The invariant rule for a [for] loop that cannot raise. *)
Lemma foldl_inv {A St : Type} (l : list A) (f : St → A → St)
    (Inv : nat → St → Prop) (s0 : St) :
  Inv 0%nat s0 →
  (∀ i a s, l !! i = Some a → Inv i s → Inv (S i) (f s a)) →
  Inv (length l) (foldl f s0 l).
Proof.
  revert Inv s0. induction l as [|x l IH]; intros Inv s0 H0 Hstep.
  - exact H0.
  - simpl. apply (IH (λ i, Inv (S i))).
    + exact (Hstep 0%nat x s0 eq_refl H0).
    + intros i a s Hi Hinv. exact (Hstep (S i) a s Hi Hinv).
Qed.

(** ** Python indexing *)

Lemma len_nonneg {A : Type} (l : list A) : 0 ≤ len l.
Proof. unfold len. lia. Qed.

Lemma py_getitem_nat {A : Type} (l : list A) (i : nat) (x : A) :
  l !! i = Some x → py_getitem l (Z.of_nat i) = Ok x.
Proof.
  intros H. unfold py_getitem.
  destruct (decide (Z.of_nat i < 0)); [lia|].
  destruct (decide (Z.of_nat i < 0)); [lia|].
  rewrite Nat2Z.id, H. reflexivity.
Qed.

Lemma py_getitem_last {A : Type} (l : list A) (x : A) :
  py_getitem (l ++ [x]) (-1) = Ok x.
Proof.
  unfold py_getitem, len. rewrite length_app. simpl.
  destruct (decide (-1 < 0)); [|lia].
  destruct (decide (-1 + Z.of_nat (length l + 1) < 0)); [lia|].
  replace (Z.to_nat (-1 + Z.of_nat (length l + 1))) with (length l) by lia.
  rewrite lookup_app_r by lia. rewrite Nat.sub_diag. reflexivity.
Qed.

Lemma py_getitem_Ok_nonneg {A : Type} (l : list A) (i : Z) (x : A) :
  0 ≤ i → py_getitem l i = Ok x → l !! Z.to_nat i = Some x.
Proof.
  intros Hi. unfold py_getitem.
  destruct (decide (i < 0)); [lia|].
  destruct (decide (i < 0)); [lia|].
  destruct (l !! Z.to_nat i); intros H; inversion H; reflexivity.
Qed.

Lemma py_getitem_total {A : Type} (l : list A) (i : Z) :
  (∃ x, py_getitem l i = Ok x) ∨ py_getitem l i = Raise IndexError.
Proof.
  unfold py_getitem.
  destruct (decide _); [right; reflexivity|].
  destruct (l !! _); [left; eauto | right; reflexivity].
Qed.

Lemma py_setitem_nat {A : Type} (l : list A) (i : nat) (v : A) :
  (i < length l)%nat → py_setitem l (Z.of_nat i) v = Ok (<[i := v]> l).
Proof.
  intros H. unfold py_setitem, len.
  destruct (decide (Z.of_nat i < 0)); [lia|].
  destruct (decide _) as [_|Hn]; [|lia].
  rewrite Nat2Z.id. reflexivity.
Qed.

Lemma py_range_lookup (a b : Z) (i : nat) (z : Z) :
  py_range a b !! i = Some z ↔ z = a + Z.of_nat i ∧ (i < Z.to_nat (b - a))%nat.
Proof.
  unfold py_range. rewrite list_lookup_fmap. split.
  - intros H. destruct (seq 0 (Z.to_nat (b - a)) !! i) as [k|] eqn:E; [|discriminate].
    apply lookup_seq in E as [-> Hlt]. simpl in H. inversion H. split; [lia|exact Hlt].
  - intros [-> Hlt]. rewrite lookup_seq_lt by exact Hlt. reflexivity.
Qed.

Lemma py_range_length (a b : Z) : length (py_range a b) = Z.to_nat (b - a).
Proof. unfold py_range. rewrite length_fmap, length_seq. reflexivity. Qed.

Lemma enumerate_length {A : Type} (l : list A) : length (enumerate l) = length l.
Proof.
  unfold enumerate. rewrite length_zip_with, py_range_length. unfold len. lia.
Qed.

Lemma enumerate_lookup {A : Type} (l : list A) (i : nat) (z : Z) (a : A) :
  enumerate l !! i = Some (z, a) ↔ z = Z.of_nat i ∧ l !! i = Some a.
Proof.
  unfold enumerate. rewrite lookup_zip_Some, py_range_lookup. split.
  - intros [[-> _] H]. split; [lia | exact H].
  - intros [-> H]. split; [|exact H]. split; [lia|].
    apply lookup_lt_Some in H. unfold len. lia.
Qed.

(** ** Counting *)

Section count.
Context {A : Type}.
Implicit Types (p q r : A → bool) (l : list A).

Lemma count_app p l1 l2 : count p (l1 ++ l2) = (count p l1 + count p l2)%nat.
Proof. induction l1 as [|x l1 IH]; simpl; [reflexivity | rewrite IH; lia]. Qed.

Lemma count_ext p q l :
  Forall (λ x, p x = q x) l → count p l = count q l.
Proof. induction 1 as [|x l Hx _ IH]; simpl; [reflexivity | rewrite Hx, IH; reflexivity]. Qed.

Lemma count_false p l : Forall (λ x, p x = false) l → count p l = 0%nat.
Proof. induction 1 as [|x l Hx _ IH]; simpl; [reflexivity | rewrite Hx, IH; reflexivity]. Qed.

Lemma count_true p l : Forall (λ x, p x = true) l → count p l = length l.
Proof. induction 1 as [|x l Hx _ IH]; simpl; [reflexivity | rewrite Hx, IH; reflexivity]. Qed.

Lemma count_le_length p l : (count p l ≤ length l)%nat.
Proof. induction l as [|x l IH]; simpl; [lia | destruct (p x); lia]. Qed.

Lemma count_Permutation p l1 l2 : l1 ≡ₚ l2 → count p l1 = count p l2.
Proof.
  induction 1 as [|x l1 l2 _ IH|x y l|l1 l2 l3 _ IH1 _ IH2]; simpl;
    [reflexivity | rewrite IH; reflexivity | lia | congruence].
Qed.

(** Two disjoint predicates that both imply a third. *)
Lemma count_disjoint_le p q r l :
  (∀ x, p x = true → r x = true) →
  (∀ x, q x = true → r x = true) →
  (∀ x, p x = true → q x = true → False) →
  (count p l + count q l ≤ count r l)%nat.
Proof.
  intros Hp Hq Hpq. induction l as [|x l IH]; simpl; [lia|].
  specialize (Hp x). specialize (Hq x). specialize (Hpq x).
  destruct (p x), (q x), (r x); try lia; try (exfalso; auto; fail);
    try (specialize (Hp eq_refl); discriminate);
    try (specialize (Hq eq_refl); discriminate).
Qed.

Lemma count_or p q l :
  (∀ x, p x = true → q x = true → False) →
  count (λ x, p x || q x) l = (count p l + count q l)%nat.
Proof.
  intros Hpq. induction l as [|x l IH]; simpl; [reflexivity|].
  rewrite IH. specialize (Hpq x).
  destruct (p x), (q x); simpl; try lia.
Qed.

Lemma count_fmap {B : Type} (f : B → A) p (l : list B) :
  count p (f <$> l) = count (p ∘ f) l.
Proof.
  induction l as [|x l IH]; [reflexivity|].
  rewrite fmap_cons. cbn [count]. rewrite IH. reflexivity.
Qed.

Lemma count_take_le p l i j :
  (i ≤ j)%nat → (count p (take i l) ≤ count p (take j l))%nat.
Proof.
  intros Hij. replace j with (i + (j - i))%nat by lia.
  rewrite <- take_take_drop, count_app. lia.
Qed.

Lemma count_pos_elem p l : (0 < count p l)%nat → ∃ x, x ∈ l ∧ p x = true.
Proof.
  induction l as [|x l IH]; simpl; [lia|].
  destruct (p x) eqn:E.
  - intros _. exists x. split; [apply list_elem_of_here | exact E].
  - intros H. destruct IH as (y & Hy & Hp); [lia|].
    exists y. split; [apply list_elem_of_further, Hy | exact Hp].
Qed.
End count.

Section rank.
Context {A : Type} `{EqDecision A}.
Implicit Types (c : A) (L : list A).

Lemma eq_to_true c y : eq_to c y = true ↔ y = c.
Proof. unfold eq_to. apply bool_decide_eq_true. Qed.

Lemma eq_to_refl c : eq_to c c = true.
Proof. apply eq_to_true. reflexivity. Qed.

(** The rank of an occurrence grows strictly with its position. *)
Lemma rank_lt c L i j :
  L !! i = Some c → (i < j)%nat →
  (count (eq_to c) (take i L) < count (eq_to c) (take j L))%nat.
Proof.
  intros Hi Hij.
  assert (Hle : (count (eq_to c) (take (S i) L) ≤ count (eq_to c) (take j L))%nat)
    by (apply count_take_le; lia).
  rewrite (take_S_r _ _ _ Hi), count_app in Hle. simpl in Hle.
  rewrite eq_to_refl in Hle. lia.
Qed.

Lemma rank_lt_total c L i :
  L !! i = Some c → (count (eq_to c) (take i L) < count (eq_to c) L)%nat.
Proof.
  intros Hi. pose proof (rank_lt c L i (length L) Hi) as H.
  rewrite firstn_all in H. apply H. eapply lookup_lt_Some, Hi.
Qed.

(** Two occurrences of a symbol with the same rank are the same one. *)
Lemma rank_inj c L i j :
  L !! i = Some c → L !! j = Some c →
  count (eq_to c) (take i L) = count (eq_to c) (take j L) → i = j.
Proof.
  intros Hi Hj Heq.
  destruct (Nat.lt_trichotomy i j) as [Hlt|[->|Hlt]]; [|reflexivity|].
  - pose proof (rank_lt c L i j Hi Hlt). lia.
  - pose proof (rank_lt c L j i Hj Hlt). lia.
Qed.

Lemma rank_le_inv c L i j :
  L !! i = Some c → L !! j = Some c →
  (count (eq_to c) (take i L) ≤ count (eq_to c) (take j L))%nat → (i ≤ j)%nat.
Proof.
  intros Hi Hj Hle. destruct (decide (i ≤ j)%nat) as [|Hn]; [assumption|].
  pose proof (rank_lt c L j i Hj ltac:(lia)). lia.
Qed.

Lemma count_eq_NoDup c L i :
  NoDup L → L !! i = Some c → count (eq_to c) (take i L) = 0%nat.
Proof.
  intros Hnd Hi. apply count_false, Forall_forall. intros y Hy.
  apply list_elem_of_lookup in Hy as [j Hj].
  apply lookup_take_Some in Hj as [Hj Hlt].
  unfold eq_to. apply bool_decide_eq_false. intros ->.
  pose proof (NoDup_lookup _ _ _ _ Hnd Hi Hj). lia.
Qed.
End rank.


(** ** Sorting with a strict total order *)

Section sorting.
Context {A : Type} `{EqDecision A} (ltb : A → A → bool).
Hypothesis Hst : strict_total ltb.

Lemma ltb_irrefl x : ltb x x = false.
Proof. apply (st_irrefl _ Hst). Qed.

Lemma ltb_asym x y : ltb x y = true → ltb y x = false.
Proof.
  intros Hxy. destruct (ltb y x) eqn:E; [|reflexivity].
  pose proof (st_trans _ Hst x y x Hxy E) as Hxx.
  rewrite ltb_irrefl in Hxx. discriminate.
Qed.

Lemma ltb_cases x y : ltb x y = true ∨ x = y ∨ ltb y x = true.
Proof.
  destruct (ltb x y) eqn:E1; [left; reflexivity|].
  destruct (ltb y x) eqn:E2; [right; right; reflexivity|].
  right; left. apply (st_tricho _ Hst); assumption.
Qed.

#[local] Instance not_gt_total : Total (not_gt ltb).
Proof.
  intros x y. unfold not_gt.
  destruct (ltb y x) eqn:E; [right; apply ltb_asym, E | left; reflexivity].
Qed.

#[local] Instance not_gt_trans : Transitive (not_gt ltb).
Proof.
  intros x y z Hxy Hyz. unfold not_gt in *.
  destruct (ltb z x) eqn:E; [|reflexivity].
  destruct (ltb_cases x y) as [H1|[->|H1]]; [|congruence|congruence].
  pose proof (st_trans _ Hst z x y E H1). congruence.
Qed.

#[local] Instance not_gt_antisymm : AntiSymm (=) (not_gt ltb).
Proof. intros x y Hxy Hyx. apply (st_tricho _ Hst); assumption. Qed.

Lemma sorted_StronglySorted l : StronglySorted (not_gt ltb) (sorted ltb l).
Proof. apply StronglySorted_merge_sort; apply _. Qed.

Lemma sorted_Permutation l : sorted ltb l ≡ₚ l.
Proof. apply merge_sort_Permutation. Qed.

Lemma sorted_length l : length (sorted ltb l) = length l.
Proof. apply Permutation_length, sorted_Permutation. Qed.

(** There is one sorted arrangement of a list. *)
Lemma sorted_unique l1 l2 :
  StronglySorted (not_gt ltb) l1 → StronglySorted (not_gt ltb) l2 →
  l1 ≡ₚ l2 → l1 = l2.
Proof. apply StronglySorted_unique; apply _. Qed.

Lemma sorted_perm_eq l1 l2 : l1 ≡ₚ l2 → sorted ltb l1 = sorted ltb l2.
Proof.
  intros Hp. apply sorted_unique; try apply sorted_StronglySorted.
  rewrite !sorted_Permutation. exact Hp.
Qed.

(** A sorted list is made of the symbols below [c], then the copies of [c],
    then the symbols above [c]. *)
Lemma sorted_split c F :
  StronglySorted (not_gt ltb) F →
  ∃ Fl Fe Fg, F = Fl ++ Fe ++ Fg ∧
    Forall (λ y, ltb y c = true) Fl ∧
    Forall (λ y, y = c) Fe ∧
    Forall (λ y, ltb c y = true) Fg.
Proof.
  induction 1 as [|x F HF IH Hx].
  - exists [], [], []. repeat split; constructor.
  - destruct IH as (Fl & Fe & Fg & -> & Hl & He & Hg).
    apply Forall_app in Hx as [Hxl Hx]. apply Forall_app in Hx as [Hxe Hxg].
    destruct (ltb_cases x c) as [Hlt|[->|Hgt]].
    + exists (x :: Fl), Fe, Fg. repeat split; try assumption.
      constructor; assumption.
    + assert (Fl = []) as ->.
      { destruct Fl as [|y Fl]; [reflexivity|].
        inversion Hl; subst. inversion Hxl; subst. unfold not_gt in *. congruence. }
      exists [], (c :: Fe), Fg. repeat split; try assumption.
      constructor; [reflexivity | assumption].
    + assert (Fl = []) as ->.
      { destruct Fl as [|y Fl]; [reflexivity|].
        inversion Hl; subst. inversion Hxl; subst. unfold not_gt in *.
        pose proof (st_trans _ Hst y c x ltac:(assumption) Hgt). congruence. }
      assert (Fe = []) as ->.
      { destruct Fe as [|y Fe]; [reflexivity|].
        inversion He; subst. inversion Hxe; subst. unfold not_gt in *. congruence. }
      exists [], [], (x :: Fg). repeat split; try assumption; try constructor; assumption.
Qed.

Lemma count_lt_below c l :
  Forall (λ y, ltb y c = true) l →
  count (lt_than ltb c) l = length l ∧ count (eq_to c) l = 0%nat.
Proof.
  intros H. split.
  - apply count_true. exact H.
  - apply count_false. eapply Forall_impl; [exact H|]. simpl. intros y Hy.
    unfold eq_to. apply bool_decide_eq_false. intros ->.
    rewrite ltb_irrefl in Hy. discriminate.
Qed.

Lemma count_lt_equal c l :
  Forall (λ y, y = c) l →
  count (lt_than ltb c) l = 0%nat ∧ count (eq_to c) l = length l.
Proof.
  intros H. split.
  - apply count_false. eapply Forall_impl; [exact H|]. simpl. intros y ->.
    apply ltb_irrefl.
  - apply count_true. eapply Forall_impl; [exact H|]. simpl. intros y ->.
    apply eq_to_refl.
Qed.

Lemma count_lt_above c l :
  Forall (λ y, ltb c y = true) l →
  count (lt_than ltb c) l = 0%nat ∧ count (eq_to c) l = 0%nat.
Proof.
  intros H. split.
  - apply count_false. eapply Forall_impl; [exact H|]. simpl. intros y Hy.
    apply ltb_asym, Hy.
  - apply count_false. eapply Forall_impl; [exact H|]. simpl. intros y Hy.
    unfold eq_to. apply bool_decide_eq_false. intros ->.
    rewrite ltb_irrefl in Hy. discriminate.
Qed.

(** In a sorted list the [k]-th copy of [c] sits [k] places after the
    symbols below [c]. *)
Lemma sorted_block c F k :
  StronglySorted (not_gt ltb) F → (k < count (eq_to c) F)%nat →
  F !! (count (lt_than ltb c) F + k)%nat = Some c ∧
  count (eq_to c) (take (count (lt_than ltb c) F + k) F) = k.
Proof.
  intros HF Hk. destruct (sorted_split c F HF) as (Fl & Fe & Fg & -> & Hl & He & Hg).
  destruct (count_lt_below c Fl Hl) as [Hl1 Hl2].
  destruct (count_lt_equal c Fe He) as [He1 He2].
  destruct (count_lt_above c Fg Hg) as [Hg1 Hg2].
  rewrite !count_app, Hl1, He1, Hg1, Hl2, He2, Hg2 in *.
  replace (length Fl + (0 + 0) + k)%nat with (length Fl + k)%nat by lia.
  split.
  - rewrite lookup_app_r by lia. rewrite lookup_app_l by lia.
    replace (length Fl + k - length Fl)%nat with k by lia.
    destruct (Fe !! k) as [y|] eqn:E.
    + f_equal. eapply (Forall_lookup_1 _ _ _ _ He E).
    + apply lookup_ge_None in E. lia.
  - rewrite take_app_add, count_app, Hl2.
    rewrite take_app_le by lia.
    assert (Forall (λ y, y = c) (take k Fe)) as Hk' by (apply Forall_take, He).
    destruct (count_lt_equal c _ Hk') as [_ ->]. rewrite length_take. lia.
Qed.

(** On a sorted list the LF formula is the identity. *)
Lemma sorted_lf_id c F i :
  StronglySorted (not_gt ltb) F → F !! i = Some c → lf_at ltb F i c = i.
Proof.
  intros HF Hi. destruct (sorted_split c F HF) as (Fl & Fe & Fg & -> & Hl & He & Hg).
  destruct (count_lt_below c Fl Hl) as [Hl1 Hl2].
  destruct (count_lt_equal c Fe He) as [He1 He2].
  destruct (count_lt_above c Fg Hg) as [Hg1 Hg2].
  unfold lf_at. rewrite !count_app, Hl1, He1, Hg1.
  destruct (decide (i < length Fl)%nat) as [Hlt|Hge].
  { rewrite lookup_app_l in Hi by lia.
    pose proof (Forall_lookup_1 _ _ _ _ Hl Hi) as Hc. simpl in Hc.
    rewrite ltb_irrefl in Hc. discriminate. }
  rewrite lookup_app_r in Hi by lia.
  destruct (decide (i - length Fl < length Fe)%nat) as [Hlt|Hge'].
  - replace i with (length Fl + (i - length Fl))%nat at 1 by lia.
    rewrite take_app_add, count_app, Hl2, take_app_le by lia.
    assert (Forall (λ y, y = c) (take (i - length Fl) Fe)) as Hk' by (apply Forall_take, He).
    destruct (count_lt_equal c _ Hk') as [_ ->]. rewrite length_take. lia.
  - rewrite lookup_app_r in Hi by lia.
    pose proof (Forall_lookup_1 _ _ _ _ Hg Hi) as Hc. simpl in Hc.
    rewrite ltb_irrefl in Hc. discriminate.
Qed.

(** Position in a sorted list without repetition: the number of smaller
    elements. *)
Lemma sorted_NoDup_position M r x :
  StronglySorted (not_gt ltb) M → NoDup M → M !! r = Some x →
  r = count (lt_than ltb x) M.
Proof.
  intros HM Hnd Hr. pose proof (sorted_lf_id x M r HM Hr) as H1.
  unfold lf_at in H1. rewrite (count_eq_NoDup x M r Hnd Hr) in H1. lia.
Qed.

(** The LF formula stays within the list. *)
Lemma lf_at_lt c L i : L !! i = Some c → (lf_at ltb L i c < length L)%nat.
Proof.
  intros Hi. unfold lf_at. pose proof (rank_lt_total c L i Hi).
  assert (count (lt_than ltb c) L + count (eq_to c) L ≤ count (λ _, true) L)%nat.
  { apply count_disjoint_le; [reflexivity..|].
    intros x H1 H2. apply eq_to_true in H2 as ->. unfold lt_than in H1.
    rewrite ltb_irrefl in H1. discriminate. }
  pose proof (count_le_length (λ _, true) L). lia.
Qed.

(** Symbols below [c] and their copies come before the block of [c]. *)
Lemma count_lt_lt c c' L :
  ltb c' c = true →
  (count (lt_than ltb c') L + count (eq_to c') L ≤ count (lt_than ltb c) L)%nat.
Proof.
  intros Hlt. apply count_disjoint_le.
  - intros x Hx. unfold lt_than in *. eapply (st_trans _ Hst); eassumption.
  - intros x Hx. apply eq_to_true in Hx as ->. exact Hlt.
  - intros x H1 H2. apply eq_to_true in H2 as ->. unfold lt_than in H1.
    rewrite ltb_irrefl in H1. discriminate.
Qed.

End sorting.

(** ** The orders on characters and strings *)

Lemma char_ltb_lt (a b : ascii) : char_ltb a b = true ↔ (N_of_ascii a < N_of_ascii b)%N.
Proof. unfold char_ltb. apply N.ltb_lt. Qed.

Lemma char_ltb_ge (a b : ascii) : char_ltb a b = false ↔ (N_of_ascii b ≤ N_of_ascii a)%N.
Proof. unfold char_ltb. apply N.ltb_ge. Qed.

Lemma char_strict_total : strict_total char_ltb.
Proof.
  split.
  - intros x. apply char_ltb_ge. lia.
  - intros x y z. rewrite !char_ltb_lt. lia.
  - intros x y. rewrite !char_ltb_ge. intros H1 H2.
    rewrite <- (ascii_N_embedding x), <- (ascii_N_embedding y). f_equal. lia.
Qed.

Lemma str_ltb_cons (a b : ascii) (s t : str) :
  str_ltb (a :: s) (b :: t) = char_ltb a b || (bool_decide (a = b) && str_ltb s t).
Proof. reflexivity. Qed.

Lemma str_strict_total : strict_total str_ltb.
Proof.
  pose proof char_strict_total as [Hi Ht Hc].
  split.
  - intros x. induction x as [|a x IH]; [reflexivity|].
    rewrite str_ltb_cons, Hi, IH, andb_false_r. reflexivity.
  - intros x. induction x as [|a x IH]; intros [|b y] [|c z]; try discriminate;
      try reflexivity.
    rewrite !str_ltb_cons. intros H1 H2.
    apply orb_true_iff in H1 as [H1|H1]; apply orb_true_iff in H2 as [H2|H2];
      apply orb_true_iff.
    + left. eapply Ht; eassumption.
    + apply andb_true_iff in H2 as [H2 _]. apply bool_decide_eq_true in H2 as <-.
      left. exact H1.
    + apply andb_true_iff in H1 as [H1 _]. apply bool_decide_eq_true in H1 as ->.
      left. exact H2.
    + apply andb_true_iff in H1 as [H1 H1']. apply andb_true_iff in H2 as [H2 H2'].
      apply bool_decide_eq_true in H1 as ->. apply bool_decide_eq_true in H2 as ->.
      right. apply andb_true_iff. split; [apply bool_decide_eq_true; reflexivity|].
      eapply IH; eassumption.
  - intros x. induction x as [|a x IH]; intros [|b y]; try discriminate;
      try reflexivity.
    rewrite !str_ltb_cons. intros H1 H2.
    apply orb_false_iff in H1 as [H1 H1']. apply orb_false_iff in H2 as [H2 H2'].
    pose proof (Hc a b H1 H2) as ->.
    rewrite bool_decide_eq_true_2 in H1', H2' by reflexivity. simpl in H1', H2'.
    f_equal. apply IH; assumption.
Qed.

(** ** The LF-mapping computed by [last_to_first_index] *)

(** The first loop: occurrence counts and ranks. *)
Lemma occ_loop_spec (L : str) :
  let st := foldl occ_step (∅, []) L in
  length st.2 = length L ∧
  ∀ j c, L !! j = Some c →
    st.2 !! j = Some (Z.of_nat (S (count (eq_to c) (take j L)))).
Proof.
  pose (Inv := λ (i : nat) (st : gmap ascii Z * list Z),
    (∀ c, default 0 (st.1 !! c) = Z.of_nat (count (eq_to c) (take i L))) ∧
    length st.2 = i ∧
    ∀ j c, (j < i)%nat → L !! j = Some c →
      st.2 !! j = Some (Z.of_nat (S (count (eq_to c) (take j L))))).
  assert (Inv (length L) (foldl occ_step (∅, []) L)) as (_ & Hlen & Hrank).
  { apply foldl_inv.
    - unfold Inv. simpl. split; [intros c; rewrite lookup_empty; reflexivity|].
      split; [reflexivity | intros; lia].
    - unfold Inv. intros i a [occ rank] Hi (Hocc & Hlen & Hrank).
      unfold occ_step. cbn [fst snd] in *.
      repeat split; simpl.
      + intros c. rewrite (take_S_r _ _ _ Hi), count_app. simpl.
        destruct (decide (a = c)) as [->|Hne].
        * rewrite lookup_insert_eq, eq_to_refl. simpl. rewrite Hocc. lia.
        * rewrite lookup_insert_ne by exact Hne. rewrite Hocc.
          replace (eq_to c a) with false; [lia|].
          symmetry. apply bool_decide_eq_false. exact Hne.
      + rewrite length_app. simpl. lia.
      + intros j c Hj Hjc. destruct (decide (j = i)) as [Heq|Hne].
        * subst j. rewrite lookup_app_r by lia. rewrite Hlen, Nat.sub_diag. simpl.
          rewrite Hi in Hjc. inversion Hjc; subst. rewrite Hocc. f_equal. lia.
        * rewrite lookup_app_l by lia. apply Hrank; [lia | exact Hjc]. }
  split; [exact Hlen|]. intros j c Hj. apply Hrank; [|exact Hj].
  eapply lookup_lt_Some, Hj.
Qed.

(** The second loop: the first position of each symbol of the first
    column. *)
Lemma first_pos_loop_spec (F : str) (c : ascii) :
  foldl first_pos_step ∅ (enumerate F) !! c
  = (λ p, Z.of_nat p.1) <$> list_find (λ y, y = c) F.
Proof.
  pose (Inv := λ (i : nat) (fp : gmap ascii Z),
    ∀ c, fp !! c = (λ p, Z.of_nat p.1) <$> list_find (λ y, y = c) (take i F)).
  assert (Inv (length (enumerate F)) (foldl first_pos_step ∅ (enumerate F))) as H.
  { apply foldl_inv.
    - unfold Inv. intros c'. rewrite lookup_empty. reflexivity.
    - unfold Inv. intros i [z a] fp Hi Hinv c'. apply enumerate_lookup in Hi as [-> Hi].
      rewrite (take_S_r _ _ _ Hi). unfold first_pos_step. simpl.
      assert (Hlen : length (take i F) = i).
      { rewrite length_take. apply lookup_lt_Some in Hi. lia. }
      destruct (list_find (λ y, y = c') (take i F)) as [[k y]|] eqn:Ec'.
      + rewrite (list_find_app_l _ _ _ _ _ Ec').
        destruct (fp !! a) eqn:Ea; [rewrite Hinv, Ec'; reflexivity|].
        destruct (decide (a = c')) as [->|Hne].
        * rewrite Hinv, Ec' in Ea. discriminate.
        * rewrite lookup_insert_ne by exact Hne. rewrite Hinv, Ec'. reflexivity.
      + rewrite (list_find_app_r _ _ _ Ec'). simpl.
        destruct (decide (a = c')) as [->|Hne].
        * rewrite Hinv, Ec'. simpl. rewrite lookup_insert_eq, Hlen. reflexivity.
        * simpl. destruct (fp !! a) eqn:Ea.
          -- rewrite Hinv, Ec'. reflexivity.
          -- rewrite lookup_insert_ne by exact Hne. rewrite Hinv, Ec'. reflexivity. }
  specialize (H c). rewrite enumerate_length, firstn_all in H. exact H.
Qed.

(** In a sorted list the first copy of [c] comes right after the symbols
    below [c]. *)
Lemma list_find_sorted (F : str) (c : ascii) :
  StronglySorted (not_gt char_ltb) F → c ∈ F →
  list_find (λ y, y = c) F = Some (count (lt_than char_ltb c) F, c).
Proof.
  intros HF Hc. apply list_find_Some.
  assert (0 < count (eq_to c) F)%nat as Hpos.
  { apply list_elem_of_lookup in Hc as [i Hi].
    pose proof (rank_lt_total c F i Hi). lia. }
  destruct (sorted_block char_ltb char_strict_total c F 0 HF Hpos) as [Hl _].
  rewrite Nat.add_0_r in Hl. split; [exact Hl|]. split; [reflexivity|].
  intros j y Hj Hlt Hy. subst y.
  pose proof (sorted_lf_id char_ltb char_strict_total c F j HF Hj) as Hid.
  unfold lf_at in Hid. lia.
Qed.

Lemma first_pos_spec (L : str) (c : ascii) :
  c ∈ L →
  foldl first_pos_step ∅ (enumerate (last_to_first_string L)) !! c
  = Some (Z.of_nat (count (lt_than char_ltb c) L)).
Proof.
  intros Hc. rewrite first_pos_loop_spec. unfold last_to_first_string.
  rewrite list_find_sorted.
  - simpl. do 2 f_equal. apply count_Permutation, sorted_Permutation.
  - apply sorted_StronglySorted, char_strict_total.
  - rewrite sorted_Permutation. exact Hc.
Qed.

Lemma lf_list_length (L : str) : length (lf_list L) = length L.
Proof. unfold lf_list. apply length_imap. Qed.

Lemma lf_list_lookup (L : str) (i : nat) (c : ascii) :
  L !! i = Some c → lf_list L !! i = Some (Z.of_nat (lf_at char_ltb L i c)).
Proof. intros H. unfold lf_list. rewrite list_lookup_imap, H. reflexivity. Qed.

(** [last_to_first_index] never raises and returns the LF formula at every
    position. *)
Lemma last_to_first_index_spec (L : str) :
  last_to_first_index L = Ok (lf_list L).
Proof.
  unfold last_to_first_index.
  pose proof (occ_loop_spec L) as Hocc. simpl in Hocc.
  destruct (foldl occ_step (∅, []) L) as [occ_L rank_L]. simpl in Hocc.
  destruct Hocc as [Hlen Hrank].
  set (first_pos := foldl first_pos_step ∅ (enumerate (last_to_first_string L))).
  pose (Inv := λ (i : nat) (index : list Z), index = take i (lf_list L)).
  match goal with |- for_each ?l ?b ?s = _ =>
    destruct (for_each_inv l b Inv s) as (index & Hrun & Hinv) end.
  - reflexivity.
  - unfold Inv. intros i [z c] index Hi ->. apply enumerate_lookup in Hi as [-> Hi].
    rewrite (py_getitem_nat _ _ _ (Hrank i c Hi)). simpl.
    unfold dict_getitem. unfold first_pos. rewrite first_pos_spec
      by (eapply list_elem_of_lookup_2, Hi). simpl.
    eexists. split; [reflexivity|]. unfold Inv.
    rewrite (take_S_r _ _ _ (lf_list_lookup L i c Hi)). do 2 f_equal.
    unfold lf_at. lia.
  - rewrite Hrun. f_equal. rewrite Hinv, enumerate_length.
    rewrite <- lf_list_length. apply firstn_all.
Qed.

(** ** The FL-mapping computed by [first_to_last_index] *)

(** The rank loop that writes into a preallocated list. *)
Lemma occ_set_loop_spec (l : str) (n : nat) :
  (length l ≤ n)%nat →
  ∃ occ rank,
    for_each (enumerate l) occ_set_step (∅, replicate n 0) = Ok (occ, rank) ∧
    length rank = n ∧
    ∀ j c, l !! j = Some c →
      rank !! j = Some (Z.of_nat (S (count (eq_to c) (take j l)))).
Proof.
  intros Hn.
  pose (Inv := λ (i : nat) (st : gmap ascii Z * list Z),
    (∀ c, default 0 (st.1 !! c) = Z.of_nat (count (eq_to c) (take i l))) ∧
    length st.2 = n ∧
    ∀ j c, (j < i)%nat → l !! j = Some c →
      st.2 !! j = Some (Z.of_nat (S (count (eq_to c) (take j l))))).
  destruct (for_each_inv (enumerate l) occ_set_step Inv (∅, replicate n 0))
    as ([occ rank] & Hrun & Hocc & Hlen & Hrank).
  - unfold Inv. simpl. split; [intros c; rewrite lookup_empty; reflexivity|].
    split; [apply length_replicate | intros; lia].
  - unfold Inv. intros i [z a] [occ rank] Hi (Hocc & Hlen & Hrank).
    apply enumerate_lookup in Hi as [-> Hi]. cbn [fst snd] in *.
    assert (i < n)%nat as Hin by (apply lookup_lt_Some in Hi; lia).
    unfold occ_set_step. cbn [fst snd].
    rewrite py_setitem_nat by lia. simpl.
    eexists. split; [reflexivity|]. cbn [fst snd].
    split; [|split].
    + intros c. rewrite (take_S_r _ _ _ Hi), count_app. simpl.
      destruct (decide (a = c)) as [->|Hne].
      * rewrite lookup_insert_eq, eq_to_refl. simpl. rewrite Hocc. lia.
      * rewrite lookup_insert_ne by exact Hne. rewrite Hocc.
        replace (eq_to c a) with false; [lia|].
        symmetry. apply bool_decide_eq_false. exact Hne.
    + rewrite length_insert. exact Hlen.
    + intros j c Hj Hjc. destruct (decide (j = i)) as [Heq|Hne].
      * subst j. rewrite list_lookup_insert_eq by lia.
        rewrite Hi in Hjc. inversion Hjc; subst. rewrite Hocc. f_equal. lia.
      * rewrite list_lookup_insert_ne by lia. apply Hrank; [lia | exact Hjc].
  - exists occ, rank. split; [exact Hrun|]. split; [exact Hlen|].
    intros j c Hj. apply Hrank; [|exact Hj].
    rewrite enumerate_length. eapply lookup_lt_Some, Hj.
Qed.

Lemma positions_from_snoc (k : nat) (c a : ascii) (l : str) :
  positions_from k c (l ++ [a])
  = positions_from k c l ++ (if decide (a = c) then [Z.of_nat (k + length l)] else []).
Proof.
  revert k. induction l as [|b l IH]; intros k; simpl.
  - rewrite Nat.add_0_r, app_nil_r. reflexivity.
  - rewrite IH, <- app_assoc. do 4 f_equal. destruct (decide (a = c)); [|reflexivity].
    do 2 f_equal. lia.
Qed.

(** The [r]-th entry of the position list of [c] is the occurrence of [c]
    of rank [r]. *)
Lemma positions_from_lookup (k : nat) (c : ascii) (l : str) (r : nat) :
  (r < count (eq_to c) l)%nat →
  ∃ p, positions_from k c l !! r = Some (Z.of_nat (k + p)) ∧
       l !! p = Some c ∧ count (eq_to c) (take p l) = r.
Proof.
  revert k r. induction l as [|a l IH]; intros k r; simpl; [lia|].
  unfold eq_to at 1. destruct (decide (a = c)) as [->|Hne].
  - rewrite bool_decide_eq_true_2 by reflexivity. intros Hr.
    destruct r as [|r].
    + exists 0%nat. simpl. rewrite Nat.add_0_r. repeat split.
    + destruct (IH (S k) r) as (p & Hp & Hl & Hc); [lia|].
      exists (S p). simpl. rewrite Hp, eq_to_refl. repeat split; try assumption.
      * do 2 f_equal. lia.
      * lia.
  - rewrite bool_decide_eq_false_2 by exact Hne. intros Hr.
    destruct (IH (S k) r) as (p & Hp & Hl & Hc); [lia|].
    exists (S p). simpl. rewrite Hp. repeat split; try assumption.
    + do 2 f_equal. lia.
    + replace (eq_to c a) with false; [exact Hc|].
      symmetry. apply bool_decide_eq_false. exact Hne.
Qed.

(** The position-list loop. *)
Lemma pos_lists_loop_spec (L : str) (c : ascii) :
  c ∈ L →
  foldl pos_lists_step ∅ (enumerate L) !! c = Some (positions_from 0 c L).
Proof.
  intros Hc.
  pose (Inv := λ (i : nat) (pl : gmap ascii (list Z)),
    (∀ c, default [] (pl !! c) = positions_from 0 c (take i L)) ∧
    (∀ c, c ∈ take i L → is_Some (pl !! c))).
  assert (Inv (length (enumerate L)) (foldl pos_lists_step ∅ (enumerate L)))
    as [H1 H2].
  { apply foldl_inv.
    - unfold Inv. simpl. split.
      + intros c'. rewrite lookup_empty. reflexivity.
      + intros c' Hc'. apply elem_of_nil in Hc'. contradiction.
    - unfold Inv. intros i [z a] pl Hi [H1 H2].
      apply enumerate_lookup in Hi as [-> Hi].
      rewrite (take_S_r _ _ _ Hi). unfold pos_lists_step. cbn [fst snd].
      assert (Hlen : length (take i L) = i).
      { rewrite length_take. apply lookup_lt_Some in Hi. lia. }
      split.
      + intros c'. rewrite positions_from_snoc, Hlen. simpl.
        destruct (decide (a = c')) as [->|Hne].
        * rewrite lookup_insert_eq. simpl. rewrite H1. reflexivity.
        * rewrite lookup_insert_ne by exact Hne. rewrite H1, app_nil_r. reflexivity.
      + intros c' Hc'. destruct (decide (a = c')) as [->|Hne].
        * rewrite lookup_insert_eq. eauto.
        * rewrite lookup_insert_ne by exact Hne. apply H2.
          apply elem_of_app in Hc' as [Hc'|Hc']; [exact Hc'|].
          apply list_elem_of_singleton in Hc'. congruence. }
  rewrite enumerate_length, firstn_all in H1, H2.
  destruct (H2 c Hc) as [ps Hps]. specialize (H1 c). rewrite Hps in H1 |- *.
  simpl in H1. rewrite H1. reflexivity.
Qed.

(** [first_to_last_index] never raises; entry [j] is the position in the
    last column of the occurrence that has the rank of the [j]-th symbol of
    the first column. *)
Lemma first_to_last_index_spec (L : str) :
  ∃ FL, first_to_last_index L = Ok FL ∧ length FL = length L ∧
    ∀ j c, last_to_first_string L !! j = Some c →
      ∃ p, FL !! j = Some (Z.of_nat p) ∧ L !! p = Some c ∧
           count (eq_to c) (take p L)
           = count (eq_to c) (take j (last_to_first_string L)).
Proof.
  unfold first_to_last_index.
  set (F := last_to_first_string L).
  assert (HFL : F ≡ₚ L) by apply sorted_Permutation.
  assert (HFlen : length F = length L) by (apply Permutation_length, HFL).
  destruct (occ_set_loop_spec L (length L)) as (occ_L & rank_L & -> & _); [lia|].
  destruct (occ_set_loop_spec F (length L)) as (occ_F & rank_F & -> & _ & Hrank); [lia|].
  simpl.
  pose (Inv := λ (i : nat) (index : list Z),
    length index = length L ∧
    ∀ j c, (j < i)%nat → F !! j = Some c →
      ∃ p, index !! j = Some (Z.of_nat p) ∧ L !! p = Some c ∧
           count (eq_to c) (take p L) = count (eq_to c) (take j F)).
  match goal with |- ∃ FL, for_each ?l ?b ?s = _ ∧ _ =>
    destruct (for_each_inv l b Inv s) as (index & Hrun & Hlen & Hinv) end.
  - unfold Inv. split; [apply length_replicate | intros; lia].
  - unfold Inv. intros i [z c] index Hi [Hlen Hinv].
    apply enumerate_lookup in Hi as [-> Hi].
    assert (i < length L)%nat as Hin by (apply lookup_lt_Some in Hi; lia).
    rewrite (py_getitem_nat _ _ _ (Hrank i c Hi)). simpl.
    assert (c ∈ L) as HcL by (rewrite <- HFL; eapply list_elem_of_lookup_2, Hi).
    unfold dict_getitem. rewrite (pos_lists_loop_spec L c HcL). simpl.
    destruct (positions_from_lookup 0 c L (count (eq_to c) (take i F)))
      as (p & Hp & HLp & Hcnt).
    { rewrite <- (count_Permutation _ _ _ HFL). apply rank_lt_total, Hi. }
    replace (Z.of_nat (S (count (eq_to c) (take i F))) - 1)
      with (Z.of_nat (count (eq_to c) (take i F))) by lia.
    rewrite (py_getitem_nat _ _ _ Hp). simpl.
    rewrite py_setitem_nat by lia.
    eexists. split; [reflexivity|]. split; [rewrite length_insert; exact Hlen|].
    intros j c' Hj Hjc. destruct (decide (j = i)) as [Heq|Hne].
    + subst j. rewrite Hi in Hjc. inversion Hjc; subst c'.
      exists p. rewrite list_lookup_insert_eq by lia. repeat split; assumption.
    + destruct (Hinv j c') as (p' & Hp' & H'); [lia | exact Hjc|].
      exists p'. rewrite list_lookup_insert_ne by lia. split; assumption.
  - exists index. split; [exact Hrun|]. split; [exact Hlen|].
    intros j c Hj. apply Hinv; [|exact Hj].
    rewrite enumerate_length. eapply lookup_lt_Some, Hj.
Qed.

(** ** LF and FL are inverse to each other *)

(** The first column holds, at the LF image of a position, the symbol of
    that position, with the same rank. *)
Lemma first_column_at_lf (L : str) (i : nat) (c : ascii) :
  L !! i = Some c →
  last_to_first_string L !! lf_at char_ltb L i c = Some c ∧
  count (eq_to c) (take (lf_at char_ltb L i c) (last_to_first_string L))
  = count (eq_to c) (take i L).
Proof.
  intros Hi. unfold last_to_first_string, lf_at.
  assert (HF : StronglySorted (not_gt char_ltb) (sorted char_ltb L))
    by apply sorted_StronglySorted, char_strict_total.
  pose proof (sorted_Permutation char_ltb L) as HP.
  rewrite <- (count_Permutation (lt_than char_ltb c) _ _ HP).
  apply (sorted_block char_ltb char_strict_total); [exact HF|].
  rewrite (count_Permutation _ _ _ HP). apply rank_lt_total, Hi.
Qed.

(** C3: for every string [L], [last_to_first_index L] and
    [first_to_last_index L] return two lists of the length of [L] whose
    entries lie in [0, len L) and which are inverse to each other:
    [FL[LF[i]] == i] and [LF[FL[i]] == i] for every [i] in [0, len L). *)
Theorem lf_fl_mutually_inverse (L : str) :
  ∃ LF FL,
    last_to_first_index L = Ok LF ∧ first_to_last_index L = Ok FL ∧
    len LF = len L ∧ len FL = len L ∧
    ∀ i, 0 ≤ i < len L →
      (∃ j, py_getitem LF i = Ok j ∧ 0 ≤ j < len L ∧ py_getitem FL j = Ok i) ∧
      (∃ j, py_getitem FL i = Ok j ∧ 0 ≤ j < len L ∧ py_getitem LF j = Ok i).
Proof.
  destruct (first_to_last_index_spec L) as (FL & HFL & HFLlen & HFLspec).
  exists (lf_list L), FL.
  split; [apply last_to_first_index_spec|]. split; [exact HFL|].
  unfold len. rewrite lf_list_length, HFLlen. split; [reflexivity|].
  split; [reflexivity|].
  intros i Hi. rewrite <- (Z2Nat.id i) by lia. set (n := Z.to_nat i).
  assert (n < length L)%nat as Hn by lia.
  assert (HF : StronglySorted (not_gt char_ltb) (last_to_first_string L))
    by apply sorted_StronglySorted, char_strict_total.
  pose proof (sorted_Permutation char_ltb L) as HP.
  split.
  - destruct (lookup_lt_is_Some_2 L n Hn) as [c Hc].
    exists (Z.of_nat (lf_at char_ltb L n c)).
    split; [apply py_getitem_nat, lf_list_lookup, Hc|].
    pose proof (lf_at_lt char_ltb char_strict_total c L n Hc) as Hlt.
    split; [lia|].
    destruct (first_column_at_lf L n c Hc) as [HFq Hrank].
    destruct (HFLspec _ _ HFq) as (p & Hp & HLp & Hcnt).
    rewrite (py_getitem_nat _ _ _ Hp). do 2 f_equal.
    apply (rank_inj c L); [exact HLp | exact Hc | congruence].
  - assert (n < length (last_to_first_string L))%nat as Hn'
      by (unfold last_to_first_string; rewrite sorted_length; exact Hn).
    destruct (lookup_lt_is_Some_2 _ n Hn') as [c Hc].
    destruct (HFLspec _ _ Hc) as (p & Hp & HLp & Hcnt).
    exists (Z.of_nat p). split; [apply py_getitem_nat, Hp|].
    split; [apply lookup_lt_Some in HLp; lia|].
    rewrite (py_getitem_nat _ _ _ (lf_list_lookup L p c HLp)). do 2 f_equal.
    pose proof (sorted_lf_id char_ltb char_strict_total c _ n HF Hc) as Hid.
    unfold lf_at in *. rewrite Hcnt.
    rewrite <- (count_Permutation (lt_than char_ltb c) _ _ HP). exact Hid.
Qed.

(** ** Rotations *)

Lemma rot_0 (T : str) : rot T 0 = T.
Proof. unfold rot. rewrite drop_0, app_nil_r. reflexivity. Qed.

Lemma rot_full (T : str) : rot T (length T) = T.
Proof. unfold rot. rewrite drop_all, firstn_all. reflexivity. Qed.

Lemma rot_length (T : str) (i : nat) : length (rot T i) = length T.
Proof. unfold rot. rewrite length_app, length_drop, length_take. lia. Qed.

Lemma rotr1_snoc (b : str) (c : ascii) : rotr1 (b ++ [c]) = c :: b.
Proof.
  unfold rotr1. rewrite length_app. simpl.
  replace (length b + 1 - 1)%nat with (length b) by lia.
  rewrite drop_app_length, take_app_length. reflexivity.
Qed.

Lemma rot_1_cons (a : ascii) (b : str) : rot (a :: b) 1 = b ++ [a].
Proof. unfold rot. simpl. rewrite drop_0, take_0. reflexivity. Qed.

Lemma rotr1_rot_1 (x : str) : rotr1 (rot x 1) = x.
Proof.
  destruct x as [|a b]; [reflexivity|]. rewrite rot_1_cons. apply rotr1_snoc.
Qed.

Lemma rot_1_rotr1 (x : str) : rot (rotr1 x) 1 = x.
Proof.
  destruct x as [|c b _] using rev_ind; [reflexivity|].
  rewrite rotr1_snoc. apply rot_1_cons.
Qed.

Lemma rotr1_rot_S (T : str) (i : nat) (a : ascii) :
  T !! i = Some a → rotr1 (rot T (S i)) = rot T i.
Proof.
  intros Hi. unfold rot at 1. rewrite (take_S_r _ _ _ Hi), app_assoc, rotr1_snoc.
  unfold rot. rewrite (drop_S _ _ _ Hi). reflexivity.
Qed.

Lemma rot_1_rot (T : str) (i : nat) (a : ascii) :
  T !! i = Some a → rot (rot T i) 1 = rot T (S i).
Proof.
  intros Hi. rewrite <- (rotr1_rot_S T i a Hi). apply rot_1_rotr1.
Qed.

Lemma lastc_snoc (b : str) (c : ascii) : lastc (b ++ [c]) = c.
Proof. unfold lastc. rewrite last_snoc. reflexivity. Qed.

Lemma headc_rotr1 (x : str) : x ≠ [] → headc (rotr1 x) = lastc x.
Proof.
  destruct x as [|c b _] using rev_ind; [congruence|]. intros _.
  rewrite rotr1_snoc, lastc_snoc. reflexivity.
Qed.

Lemma headc_rot (T : str) (i : nat) (a : ascii) :
  T !! i = Some a → headc (rot T i) = a.
Proof.
  intros Hi. unfold rot. rewrite (drop_S _ _ _ Hi). reflexivity.
Qed.

(** Rotating every rotation once to the right gives the same rotations in
    another order. *)
Lemma rotr1_rotations (T : str) :
  rotr1 <$> (rot T <$> seq 0 (length T)) ≡ₚ rot T <$> seq 0 (length T).
Proof.
  destruct (length T) as [|m] eqn:En; [reflexivity|].
  assert (is_Some (T !! m)) as [a Ha] by (apply lookup_lt_is_Some_2; lia).
  assert (Hl : rotr1 <$> (rot T <$> seq 0 (S m)) = rot T m :: (rot T <$> seq 0 m)).
  { simpl. f_equal.
    - rewrite rot_0. rewrite <- (rot_full T) at 1. rewrite En.
      apply (rotr1_rot_S T m a Ha).
    - rewrite <- fmap_S_seq, <- !list_fmap_compose. apply list_fmap_ext.
      intros j i Hi. apply lookup_seq in Hi as [-> Hi]. simpl.
      assert (is_Some (T !! j)) as [b Hb] by (apply lookup_lt_is_Some_2; lia).
      apply (rotr1_rot_S T j b Hb). }
  rewrite Hl, seq_S, fmap_app. simpl. apply Permutation_cons_append.
Qed.

Lemma rot_sentinel (text : str) (i : nat) :
  (i ≤ length text)%nat →
  rot (text ++ ["$"%char]) i = drop i text ++ "$"%char :: take i text.
Proof.
  intros Hi. unfold rot. rewrite drop_app_le, take_app_le by lia.
  rewrite <- app_assoc. reflexivity.
Qed.

Lemma app_cons_first_inv {A : Type} (c : A) (l1 l1' l2 l2' : list A) :
  c ∉ l1 → c ∉ l1' → l1 ++ c :: l2 = l1' ++ c :: l2' → l1 = l1'.
Proof.
  revert l1'. induction l1 as [|a l1 IH]; intros [|a' l1'] H1 H2 Heq; simpl in Heq.
  - reflexivity.
  - inversion Heq; subst. exfalso. apply H2. left.
  - inversion Heq; subst. exfalso. apply H1. left.
  - inversion Heq; subst. f_equal. apply IH; [| |assumption].
    + intros H. apply H1. right. exact H.
    + intros H. apply H2. right. exact H.
Qed.

Lemma elem_of_drop_1 {A : Type} (x : A) (i : nat) (l : list A) :
  x ∈ drop i l → x ∈ l.
Proof.
  intros H. rewrite <- (take_drop i l). apply elem_of_app. right. exact H.
Qed.

(** ** The sorted rotation table *)

Lemma cyclic_rotations_rot (text : str) :
  cyclic_rotations text
  = rot (text ++ ["$"%char]) <$> seq 0 (length (text ++ ["$"%char])).
Proof. reflexivity. Qed.

Lemma cyclic_rotations_length (text : str) :
  length (cyclic_rotations text) = S (length text).
Proof.
  unfold cyclic_rotations. rewrite length_fmap, length_seq, length_app. simpl. lia.
Qed.

Lemma cyclic_rotations_NoDup (text : str) :
  "$"%char ∉ text → NoDup (cyclic_rotations text).
Proof.
  intros Hs. rewrite cyclic_rotations_rot. apply NoDup_fmap_2_strong; [|apply NoDup_seq].
  intros i j Hi Hj Heq. apply elem_of_seq in Hi, Hj.
  rewrite length_app in Hi, Hj. simpl in Hi, Hj.
  rewrite !rot_sentinel in Heq by lia.
  apply app_cons_first_inv in Heq.
  - apply (f_equal length) in Heq. rewrite !length_drop in Heq. lia.
  - intros H. apply Hs. eapply elem_of_drop_1. exact H.
  - intros H. apply Hs. eapply elem_of_drop_1. exact H.
Qed.

Lemma rows_Permutation (text : str) : rows text ≡ₚ cyclic_rotations text.
Proof. apply sorted_Permutation. Qed.

Lemma rows_sorted (text : str) : StronglySorted (not_gt str_ltb) (rows text).
Proof. apply sorted_StronglySorted, str_strict_total. Qed.

Lemma rows_NoDup (text : str) : "$"%char ∉ text → NoDup (rows text).
Proof. intros H. rewrite rows_Permutation. apply cyclic_rotations_NoDup, H. Qed.

Lemma rows_length (text : str) : length (rows text) = S (length text).
Proof. rewrite rows_Permutation. apply cyclic_rotations_length. Qed.

Lemma rows_elem (text : str) (x : str) :
  x ∈ rows text ↔
  ∃ i, (i ≤ length text)%nat ∧ x = rot (text ++ ["$"%char]) i.
Proof.
  rewrite rows_Permutation, cyclic_rotations_rot, list_elem_of_fmap.
  rewrite length_app. simpl. split.
  - intros (i & -> & Hi). apply elem_of_seq in Hi. exists i. split; [lia | reflexivity].
  - intros (i & Hi & ->). exists i. split; [reflexivity|]. apply elem_of_seq. lia.
Qed.

Lemma rows_row_length (text : str) (x : str) :
  x ∈ rows text → length x = S (length text).
Proof.
  intros H. apply rows_elem in H as (i & _ & ->).
  rewrite rot_length, length_app. simpl. lia.
Qed.

Lemma rows_rotr1 (text : str) : rotr1 <$> rows text ≡ₚ rows text.
Proof.
  rewrite rows_Permutation at 1. rewrite rows_Permutation.
  rewrite cyclic_rotations_rot. apply rotr1_rotations.
Qed.

(** ** Order of the entries of a sorted list without repetition *)

Section strictly_sorted.
Context {A : Type} `{EqDecision A} (ltb : A → A → bool).
Hypothesis Hst : strict_total ltb.

Lemma StronglySorted_lookup_lt (R : relation A) (M : list A) (j r : nat) (z x : A) :
  StronglySorted R M → M !! j = Some z → M !! r = Some x → (j < r)%nat → R z x.
Proof.
  intros HM. revert j r. induction HM as [|a M HM IH Ha]; intros j r Hj Hr Hlt.
  - inversion Hj.
  - destruct r as [|r]; [lia|]. destruct j as [|j]; simpl in *.
    + inversion Hj; subst. eapply Forall_lookup_1; eassumption.
    + eapply IH; [eassumption..|lia].
Qed.

Lemma sorted_before (M : list A) (j r : nat) (z x : A) :
  StronglySorted (not_gt ltb) M → NoDup M →
  M !! j = Some z → M !! r = Some x → (j < r)%nat → ltb z x = true.
Proof.
  intros HM Hnd Hj Hr Hlt.
  pose proof (StronglySorted_lookup_lt _ M j r z x HM Hj Hr Hlt) as Hle.
  unfold not_gt in Hle.
  destruct (ltb_cases ltb Hst z x) as [H1|[->|H1]]; [exact H1| |congruence].
  pose proof (NoDup_lookup _ _ _ _ Hnd Hj Hr). lia.
Qed.

Lemma sorted_after (M : list A) (j r : nat) (z x : A) :
  StronglySorted (not_gt ltb) M →
  M !! j = Some z → M !! r = Some x → (r ≤ j)%nat → ltb z x = false.
Proof.
  intros HM Hj Hr Hle. destruct (decide (r = j)) as [->|Hne].
  - rewrite Hj in Hr. inversion Hr; subst. apply (ltb_irrefl ltb Hst).
  - apply (StronglySorted_lookup_lt _ M r j x z HM Hr Hj). lia.
Qed.

End strictly_sorted.

(** ** The transform returns the last column of the table *)

Lemma mapM_Ok {A B : Type} (f : A → result B) (g : A → B) (l : list A) :
  (∀ x, x ∈ l → f x = Ok (g x)) → mapM f l = Ok (g <$> l).
Proof.
  induction l as [|x l IH]; intros H; [reflexivity|].
  simpl. rewrite (H x) by left. simpl.
  rewrite IH by (intros y Hy; apply H; right; exact Hy). reflexivity.
Qed.

Lemma py_getitem_lastc (x : str) : x ≠ [] → py_getitem x (-1) = Ok (lastc x).
Proof.
  destruct x as [|c b _] using rev_ind; [congruence|]. intros _.
  rewrite py_getitem_last, lastc_snoc. reflexivity.
Qed.

Lemma rows_nonempty (text : str) (x : str) : x ∈ rows text → x ≠ [].
Proof. intros H ->. apply rows_row_length in H. simpl in H. lia. Qed.

Lemma bwt_spec (text : str) : bwt text = Ok (lastc <$> rows text).
Proof.
  unfold bwt. apply mapM_Ok. intros x Hx.
  apply py_getitem_lastc. eapply rows_nonempty, Hx.
Qed.

Lemma headc_rotations (T : str) : headc <$> (rot T <$> seq 0 (length T)) = T.
Proof.
  apply list_eq. intros i. rewrite !list_lookup_fmap.
  destruct (T !! i) as [a|] eqn:E.
  - rewrite lookup_seq_lt by (eapply lookup_lt_Some, E). simpl.
    rewrite (headc_rot T i a E). reflexivity.
  - rewrite lookup_seq_ge by (apply lookup_ge_None, E). reflexivity.
Qed.

(** The last column is a rearrangement of the text and the sentinel. *)
Lemma last_column_Permutation (text : str) :
  lastc <$> rows text ≡ₚ text ++ ["$"%char].
Proof.
  assert (lastc <$> rows text = headc <$> (rotr1 <$> rows text)) as ->.
  { rewrite <- list_fmap_compose. apply list_fmap_ext. intros i x Hx. simpl.
    symmetry. apply headc_rotr1. eapply rows_nonempty, list_elem_of_lookup_2, Hx. }
  rewrite rows_rotr1, rows_Permutation, cyclic_rotations_rot.
  rewrite headc_rotations. reflexivity.
Qed.

(** C4: for every string [S], [bwt S] returns a string of length
    [len S + 1] that is a permutation of [S] with the sentinel appended:
    [sorted(bwt(S)) == sorted(S + "$")]. *)
Theorem bwt_length_permutation (S : str) :
  ∃ out, bwt S = Ok out ∧ len out = len S + 1 ∧
    out ≡ₚ S ++ ["$"%char] ∧
    sorted char_ltb out = sorted char_ltb (S ++ ["$"%char]).
Proof.
  exists (lastc <$> rows S). split; [apply bwt_spec|].
  pose proof (last_column_Permutation S) as HP.
  split; [|split].
  - unfold len. rewrite length_fmap, rows_length. lia.
  - exact HP.
  - apply (sorted_perm_eq char_ltb char_strict_total), HP.
Qed.

(** C5 (as the code behaves): [bwt] does not check its input for the
    sentinel.  For a text that already contains ["$"] it raises nothing and
    returns a string of length [len text + 1], in which the sentinel occurs
    once more than in the text. *)
Theorem bwt_accepts_sentinel (text : str) :
  "$"%char ∈ text →
  ∃ out, bwt text = Ok out ∧ len out = len text + 1 ∧
    count (eq_to "$"%char) out = S (count (eq_to "$"%char) text) ∧
    (2 ≤ count (eq_to "$"%char) out)%nat.
Proof.
  intros Hs. exists (lastc <$> rows text). split; [apply bwt_spec|].
  split; [unfold len; rewrite length_fmap, rows_length; lia|].
  rewrite (count_Permutation _ _ _ (last_column_Permutation text)), count_app.
  simpl. apply list_elem_of_lookup in Hs as [i Hi].
  pose proof (rank_lt_total _ _ _ Hi). split; lia.
Qed.

Lemma bwt_accepts_sentinel_witness :
  ∃ out, bwt (py "A$") = Ok out ∧ len out = len (py "A$") + 1 ∧
    count (eq_to "$"%char) out = S (count (eq_to "$"%char) (py "A$")) ∧
    (2 ≤ count (eq_to "$"%char) out)%nat.
Proof.
  apply bwt_accepts_sentinel.
  apply (bool_decide_unpack _). vm_compute. exact I.
Defined.

(** C5 as stated fails: the text ["A$"] contains the sentinel and [bwt]
    returns a string for it. *)
Lemma bwt_sentinel_counterexample :
  ("$"%char ∈ py "A$") ∧ bwt (py "A$") = Ok (py "A$$").
Proof.
  split; [apply (bool_decide_unpack _); vm_compute; exact I|].
  vm_compute. reflexivity.
Qed.

(** ** LF maps a row to the row of its rotation to the right *)

Lemma str_ltb_snoc_same (b b' : str) (c : ascii) :
  length b = length b' → str_ltb (b ++ [c]) (b' ++ [c]) = str_ltb b b'.
Proof.
  revert b'. induction b as [|a b IH]; intros [|a' b'] Hlen; try discriminate.
  - simpl. rewrite (st_irrefl _ char_strict_total).
    rewrite andb_false_r. reflexivity.
  - simpl in Hlen. rewrite <- !app_comm_cons, !str_ltb_cons, IH by lia. reflexivity.
Qed.

Lemma str_ltb_rotr1 (z x : str) :
  length z = length x → x ≠ [] →
  str_ltb (rotr1 z) (rotr1 x)
  = char_ltb (lastc z) (lastc x) || (eq_to (lastc x) (lastc z) && str_ltb z x).
Proof.
  intros Hlen Hx.
  destruct x as [|c2 b' _] using rev_ind; [congruence|].
  destruct z as [|c1 b _] using rev_ind.
  { rewrite length_app in Hlen. simpl in Hlen. lia. }
  rewrite !length_app in Hlen. simpl in Hlen.
  rewrite !rotr1_snoc, !lastc_snoc, str_ltb_cons. unfold eq_to.
  destruct (decide (c1 = c2)) as [->|Hne].
  - rewrite str_ltb_snoc_same by lia. reflexivity.
  - rewrite bool_decide_eq_false_2 by exact Hne. reflexivity.
Qed.

Lemma lf_rotr1 (text : str) (r : nat) (x : str) :
  "$"%char ∉ text → rows text !! r = Some x →
  rows text !! lf_at char_ltb (lastc <$> rows text) r (lastc x) = Some (rotr1 x).
Proof.
  intros Hs Hr. set (M := rows text) in *. set (c := lastc x).
  pose proof (rows_sorted text) as HM. pose proof (rows_NoDup text Hs) as Hnd.
  fold M in HM, Hnd.
  assert (Hlen : ∀ z, z ∈ M → length z = length x).
  { intros z Hz. rewrite (rows_row_length text z Hz).
    symmetry. eapply rows_row_length, list_elem_of_lookup_2, Hr. }
  assert (Hx : x ≠ []) by (eapply rows_nonempty, list_elem_of_lookup_2, Hr).
  assert (rotr1 x ∈ M) as Hy.
  { unfold M. rewrite <- rows_rotr1. apply list_elem_of_fmap_2.
    eapply list_elem_of_lookup_2, Hr. }
  apply list_elem_of_lookup in Hy as [r' Hr'].
  rewrite <- Hr'. f_equal.
  rewrite (sorted_NoDup_position str_ltb str_strict_total M r' (rotr1 x) HM Hnd Hr').
  rewrite <- (count_Permutation _ _ _ (rows_rotr1 text)). fold M.
  rewrite count_fmap. unfold lf_at.
  rewrite <- fmap_take, !count_fmap.
  rewrite <- (take_drop r M) at 1 3. rewrite !count_app.
  assert (count (lt_than str_ltb (rotr1 x) ∘ rotr1) (take r M)
          = (count (lt_than char_ltb c ∘ lastc) (take r M)
             + count (eq_to c ∘ lastc) (take r M))%nat) as ->.
  { rewrite <- count_or.
    - apply count_ext, Forall_forall. intros z Hz.
      apply elem_of_take in Hz as (j & Hj & Hlt). simpl. unfold lt_than.
      rewrite str_ltb_rotr1; [|apply Hlen; eapply list_elem_of_lookup_2, Hj|exact Hx].
      rewrite (sorted_before str_ltb str_strict_total M j r z x HM Hnd Hj Hr Hlt).
      rewrite andb_true_r. reflexivity.
    - intros z H1 H2. simpl in H1, H2. apply (proj1 (eq_to_true _ _)) in H2.
      unfold lt_than in H1.
      rewrite H2, (st_irrefl _ char_strict_total) in H1. discriminate. }
  assert (count (lt_than str_ltb (rotr1 x) ∘ rotr1) (drop r M)
          = count (lt_than char_ltb c ∘ lastc) (drop r M)) as ->.
  { apply count_ext, Forall_forall. intros z Hz.
    apply list_elem_of_lookup in Hz as [j Hj]. rewrite lookup_drop in Hj.
    simpl. unfold lt_than.
    rewrite str_ltb_rotr1; [|apply Hlen; eapply list_elem_of_lookup_2, Hj|exact Hx].
    rewrite (sorted_after str_ltb str_strict_total M (r + j) r z x HM Hj Hr) by lia.
    rewrite andb_false_r, orb_false_r. reflexivity. }
  lia.
Qed.

(** ** Inversion *)

Lemma lastc_row_sentinel (text : str) (x : str) :
  "$"%char ∉ text → x ∈ rows text → lastc x = "$"%char →
  x = text ++ ["$"%char].
Proof.
  intros Hs Hx Hl. apply rows_elem in Hx as (i & Hi & ->).
  rewrite rot_sentinel in Hl |- * by exact Hi.
  destruct (take i text) as [|c b _] eqn:E using rev_ind.
  - assert (drop i text = text) as ->; [|reflexivity].
    rewrite <- (take_drop i text) at 2. rewrite E. reflexivity.
  - exfalso. apply Hs.
    assert (drop i text ++ "$"%char :: (b ++ [c])
            = (drop i text ++ "$"%char :: b) ++ [c]) as Heq
      by (rewrite <- app_assoc; reflexivity).
    rewrite Heq, lastc_snoc in Hl. subst c.
    rewrite <- (take_drop i text), E. apply elem_of_app. left.
    apply elem_of_app. right. left.
Qed.

(** The row that ends with the sentinel is the row of the text itself, and
    [index] finds it. *)
Lemma py_index_sentinel (text : str) :
  "$"%char ∉ text →
  ∃ r, py_index (lastc <$> rows text) "$"%char = Ok (Z.of_nat r) ∧
       rows text !! r = Some (text ++ ["$"%char]).
Proof.
  intros Hs.
  assert (text ++ ["$"%char] ∈ rows text) as HT.
  { apply rows_elem. exists 0%nat. split; [lia|]. rewrite rot_0. reflexivity. }
  apply list_elem_of_lookup in HT as [r Hr]. exists r. split; [|exact Hr].
  unfold py_index.
  assert (list_find (λ y, y = "$"%char) (lastc <$> rows text) = Some (r, "$"%char)) as ->;
    [|reflexivity].
  apply list_find_Some. split; [|split; [reflexivity|]].
  - rewrite list_lookup_fmap, Hr. simpl. rewrite lastc_snoc. reflexivity.
  - intros j y Hj Hlt Hy. subst y.
    rewrite list_lookup_fmap in Hj.
    destruct (rows text !! j) as [x|] eqn:Hx; [|discriminate].
    simpl in Hj. inversion Hj as [Hl].
    pose proof (lastc_row_sentinel text x Hs (list_elem_of_lookup_2 _ _ _ Hx) Hl).
    subst x. pose proof (NoDup_lookup _ _ _ _ (rows_NoDup text Hs) Hx Hr). lia.
Qed.

(** Reading the last symbol while rotating to the right spells the string
    backwards. *)
Lemma unwind_reverse (b a : str) :
  (λ k, lastc (Nat.iter k rotr1 (a ++ b))) <$> seq 0 (length b) = reverse b.
Proof.
  revert a. induction b as [|c b IH] using rev_ind; intros a; [reflexivity|].
  rewrite length_app. simpl. rewrite Nat.add_1_r. simpl.
  rewrite app_assoc, lastc_snoc, reverse_snoc. f_equal.
  rewrite <- fmap_S_seq, <- list_fmap_compose.
  rewrite <- (IH (c :: a)). apply list_fmap_ext. intros i k _.
  unfold compose. rewrite Nat.iter_succ_r, rotr1_snoc. reflexivity.
Qed.

Lemma lstrip_notin (s : str) (c : ascii) : c ∉ s → lstrip s c = s.
Proof.
  destruct s as [|a s]; [reflexivity|]. intros H. simpl.
  destruct (decide (a = c)) as [->|]; [|reflexivity].
  exfalso. apply H. left.
Qed.

Lemma rstrip_sentinel (text : str) :
  "$"%char ∉ text → rstrip (text ++ ["$"%char]) "$"%char = text.
Proof.
  intros Hs. unfold rstrip. rewrite reverse_snoc. simpl.
  rewrite lstrip_notin, reverse_involutive; [reflexivity|].
  rewrite elem_of_reverse. exact Hs.
Qed.

(** The loop of [invert_bwt], started at row [r] holding [x]: after [t]
    steps it has read the last symbols of [x] rotated [0 .. t-1] times. *)
Lemma invert_loop_spec (text : str) (r : nat) (x : str) (m : nat) :
  "$"%char ∉ text → rows text !! r = Some x →
  ∃ j,
    for_each (py_range 0 (Z.of_nat m))
      (λ '(output, j) _,
         c ← py_getitem (lastc <$> rows text) j;
         j' ← py_getitem (lf_list (lastc <$> rows text)) j;
         mret (output ++ [c], j'))
      ([], Z.of_nat r)
    = Ok ((λ k, lastc (Nat.iter k rotr1 x)) <$> seq 0 m, j).
Proof.
  intros Hs Hr. set (L := lastc <$> rows text).
  pose (Inv := λ (t : nat) (st : str * Z),
    st.1 = (λ k, lastc (Nat.iter k rotr1 x)) <$> seq 0 t ∧
    ∃ r', st.2 = Z.of_nat r' ∧ rows text !! r' = Some (Nat.iter t rotr1 x)).
  match goal with |- ∃ j, for_each ?l ?b ?s = _ =>
    destruct (for_each_inv l b Inv s) as ([output j] & Hrun & Hout & _) end.
  - unfold Inv. simpl. split; [reflexivity|]. exists r. split; [reflexivity | exact Hr].
  - unfold Inv. intros t _ [output j] _ [Hout (r' & Hj & Hr')]. simpl in Hout, Hj.
    subst output j.
    assert (L !! r' = Some (lastc (Nat.iter t rotr1 x))) as HL.
    { unfold L. rewrite list_lookup_fmap, Hr'. reflexivity. }
    rewrite (py_getitem_nat _ _ _ HL). simpl.
    rewrite (py_getitem_nat _ _ _ (lf_list_lookup L r' _ HL)). simpl.
    eexists. split; [reflexivity|]. cbn [fst snd]. split.
    + transitivity ((λ k, lastc (Nat.iter k rotr1 x)) <$> seq 0 (S t));
        [rewrite seq_S, fmap_app; reflexivity | reflexivity].
    + eexists. split; [reflexivity|]. apply lf_rotr1; assumption.
  - exists j. rewrite Hrun. rewrite py_range_length in Hout. cbn [fst] in Hout.
    replace (Z.to_nat (Z.of_nat m - 0)) with m in Hout by lia.
    rewrite Hout. reflexivity.
Qed.

(** C1: for every string [S] that does not contain the sentinel,
    [invert_bwt(bwt(S)) == S]. *)
Theorem invert_bwt_roundtrip (S : str) :
  "$"%char ∉ S → (bwt S ≫= invert_bwt) = Ok S.
Proof.
  intros Hs. rewrite bwt_spec. simpl. unfold invert_bwt.
  rewrite last_to_first_index_spec. simpl.
  destruct (py_index_sentinel S Hs) as (r & -> & Hr). simpl.
  destruct (invert_loop_spec S r _ (length (S ++ ["$"%char])) Hs Hr) as [j Hrun].
  assert (len (lastc <$> rows S) = Z.of_nat (length (S ++ ["$"%char]))) as ->.
  { unfold len. rewrite length_fmap, rows_length, length_app. simpl. lia. }
  rewrite Hrun, bind_Ok. cbv beta iota.
  pose proof (unwind_reverse (S ++ ["$"%char]) []) as Hu.
  rewrite app_nil_l in Hu. rewrite Hu, reverse_involutive.
  rewrite rstrip_sentinel by exact Hs. reflexivity.
Qed.

Lemma invert_bwt_roundtrip_witness :
  (bwt (py "ACAGTGAT") ≫= invert_bwt) = Ok (py "ACAGTGAT").
Proof.
  apply invert_bwt_roundtrip.
  apply (bool_decide_unpack _). vm_compute. exact I.
Defined.

(** ** When [invert_bwt] raises *)

(** The chain of the LF-mapping never leaves the list. *)
Lemma lf_chain_lt (L : str) (r t : nat) :
  (r < length L)%nat → (lf_chain (lf_list L) r t < length L)%nat.
Proof.
  intros Hr. induction t as [|t IH]; [exact Hr|].
  unfold lf_chain in *. simpl.
  destruct (lookup_lt_is_Some_2 L _ IH) as [c Hc].
  rewrite (lf_list_lookup L _ c Hc). simpl. rewrite Nat2Z.id.
  apply (lf_at_lt char_ltb char_strict_total), Hc.
Qed.

(** The loop of [invert_bwt], started at any row [r] of any string: after
    [m] steps it has read the symbols of the chain [r], [LF[r]], ... and
    stands at the [m]-th row of the chain. *)
Lemma invert_loop_chain (L : str) (r m : nat) :
  (r < length L)%nat →
  for_each (py_range 0 (Z.of_nat m))
    (λ '(output, j) _,
       c ← py_getitem L j;
       j' ← py_getitem (lf_list L) j;
       mret (output ++ [c], j'))
    ([], Z.of_nat r)
  = Ok (chain_symbols L (lf_list L) r m, Z.of_nat (lf_chain (lf_list L) r m)).
Proof.
  intros Hr.
  pose (Inv := λ (t : nat) (st : str * Z),
    st.1 = chain_symbols L (lf_list L) r t ∧
    st.2 = Z.of_nat (lf_chain (lf_list L) r t)).
  match goal with |- for_each ?l ?b ?s = _ =>
    destruct (for_each_inv l b Inv s) as ([output j] & Hrun & Hout & Hj) end.
  - unfold Inv. split; reflexivity.
  - unfold Inv. intros t _ [output j] _ [Hout Hj]. cbn [fst snd] in Hout, Hj.
    subst output j.
    pose proof (lf_chain_lt L r t Hr) as Hlt.
    destruct (lookup_lt_is_Some_2 L _ Hlt) as [c Hc].
    rewrite (py_getitem_nat _ _ _ Hc). simpl.
    rewrite (py_getitem_nat _ _ _ (lf_list_lookup L _ c Hc)). simpl.
    eexists. split; [reflexivity|]. cbn [fst snd]. split.
    + unfold chain_symbols. rewrite seq_S, fmap_app. simpl.
      rewrite Hc. reflexivity.
    + change (lf_chain (lf_list L) r (S t))
        with (Z.to_nat (default 0 (lf_list L !! lf_chain (lf_list L) r t))).
      rewrite (lf_list_lookup L _ c Hc). simpl. rewrite Nat2Z.id. reflexivity.
  - rewrite Hrun. rewrite py_range_length in Hout, Hj. cbn [fst snd] in Hout, Hj.
    replace (Z.to_nat (Z.of_nat m - 0)) with m in Hout, Hj by lia.
    rewrite Hout, Hj. reflexivity.
Qed.

(** C6 (as the code behaves): [invert_bwt] raises, with [ValueError] from
    [index], exactly when the sentinel does not occur in its input; as soon
    as the sentinel occurs, once or several times, it returns a string.
    That string is fixed by the first occurrence [r] of the sentinel and
    the LF-mapping [LF] of the input: the symbols read at the rows [r],
    [LF[r]], [LF[LF[r]]], ..., one for each symbol of the input, then
    reversed, with the sentinels at the end stripped. *)
Theorem invert_bwt_raises_iff_no_sentinel (L : str) :
  (invert_bwt L = Raise ValueError ↔ "$"%char ∉ L) ∧
  ((∃ out, invert_bwt L = Ok out) ↔ "$"%char ∈ L) ∧
  ("$"%char ∈ L →
   ∃ (r : nat) (LF : list Z),
     L !! r = Some "$"%char ∧
     (∀ i, (i < r)%nat → L !! i ≠ Some "$"%char) ∧
     last_to_first_index L = Ok LF ∧
     (∀ t, (lf_chain LF r t < length L)%nat) ∧
     (∀ t, (t < length L)%nat →
        L !! lf_chain LF r t = chain_symbols L LF r (length L) !! t ∧
        LF !! lf_chain LF r t = Some (Z.of_nat (lf_chain LF r (S t)))) ∧
     invert_bwt L
     = Ok (rstrip (reverse (chain_symbols L LF r (length L))) "$"%char)).
Proof.
  assert (Hno : "$"%char ∉ L → invert_bwt L = Raise ValueError).
  { intros Hs. unfold invert_bwt. rewrite last_to_first_index_spec. simpl.
    unfold py_index.
    assert (list_find (λ y, y = "$"%char) L = None) as ->; [|reflexivity].
    apply list_find_None, Forall_forall. intros y Hy ->. exact (Hs Hy). }
  assert (Hchain : "$"%char ∈ L →
    ∃ r : nat,
      L !! r = Some "$"%char ∧
      (∀ i, (i < r)%nat → L !! i ≠ Some "$"%char) ∧
      invert_bwt L
      = Ok (rstrip (reverse (chain_symbols L (lf_list L) r (length L))) "$"%char)).
  { intros Hs. unfold invert_bwt. rewrite last_to_first_index_spec. simpl.
    unfold py_index.
    destruct (list_find_elem_of (λ y, y = "$"%char) L "$"%char Hs eq_refl)
      as [[r y] Hfind].
    rewrite Hfind. simpl.
    apply list_find_Some in Hfind as (Hr & -> & Hfirst).
    exists r. split; [exact Hr|]. split.
    - intros i Hi Hi'. exact (Hfirst i _ Hi' Hi eq_refl).
    - apply lookup_lt_Some in Hr.
      unfold len. rewrite (invert_loop_chain L r (length L) Hr). reflexivity. }
  split; [|split].
  - split.
    + intros H Hs. destruct (Hchain Hs) as (r & _ & _ & Hout). congruence.
    + exact Hno.
  - split.
    + intros [out Hout]. destruct (decide ("$"%char ∈ L)) as [|Hn]; [assumption|].
      rewrite (Hno Hn) in Hout. discriminate.
    + intros Hs. destruct (Hchain Hs) as (r & _ & _ & Hout). eauto.
  - intros Hs. destruct (Hchain Hs) as (r & Hr & Hfirst & Hout).
    exists r, (lf_list L).
    pose proof (lookup_lt_Some _ _ _ Hr) as Hlt.
    split; [exact Hr|]. split; [exact Hfirst|].
    split; [apply last_to_first_index_spec|].
    split; [intros t; apply lf_chain_lt, Hlt|].
    split; [|exact Hout].
    intros t Ht. pose proof (lf_chain_lt L r t Hlt) as Hc.
    destruct (lookup_lt_is_Some_2 L _ Hc) as [c Hc']. split.
    + unfold chain_symbols. rewrite list_lookup_fmap, lookup_seq_lt by exact Ht.
      simpl. rewrite Hc'. reflexivity.
    + rewrite (lf_list_lookup L _ c Hc').
      change (lf_chain (lf_list L) r (S t))
        with (Z.to_nat (default 0 (lf_list L !! lf_chain (lf_list L) r t))).
      rewrite (lf_list_lookup L _ c Hc'). simpl. rewrite Nat2Z.id. reflexivity.
Qed.

(** On ["$A$"] the LF-mapping is [[0; 2; 1]] and the first sentinel is at
    row 0, a fixed point of the mapping: the chain reads the sentinel three
    times, and on ["A$"] it reads ["$A"]. *)
Example invert_bwt_chain_runs :
  last_to_first_index (py "$A$") = Ok [0; 2; 1] ∧
  chain_symbols (py "$A$") [0; 2; 1] 0 3 = py "$$$" ∧
  last_to_first_index (py "A$") = Ok [1; 0] ∧
  chain_symbols (py "A$") [1; 0] 1 2 = py "$A" ∧
  invert_bwt (py "A$") = Ok (py "A").
Proof. repeat split; vm_compute; reflexivity. Qed.

(** C6 as stated fails: in ["$A$"] the sentinel occurs twice and
    [invert_bwt] returns a string. *)
Lemma invert_bwt_two_sentinels_counterexample :
  count (eq_to "$"%char) (py "$A$") = 2%nat ∧ invert_bwt (py "$A$") = Ok (py "").
Proof. split; vm_compute; reflexivity. Qed.

(** ** Termination of the loop of [bw_matching] *)

Lemma py_getitem_fuel {A : Type} (l : list A) (i : Z) : py_getitem l i ≠ OutOfFuel.
Proof. destruct (py_getitem_total l i) as [[x ->]| ->]; discriminate. Qed.

Lemma for_each_fuel {A St : Type} (l : list A) (body : St → A → result St) (s : St) :
  (∀ s a, body s a ≠ OutOfFuel) → for_each l body s ≠ OutOfFuel.
Proof.
  intros Hb. revert s. induction l as [|x l IH]; intros s; simpl; [discriminate|].
  specialize (Hb s x). destruct (body s x); simpl; [apply IH | discriminate | congruence].
Qed.

Lemma current_positions_fuel (lastcol : str) (c : ascii) (top bottom : Z) :
  current_positions lastcol c top bottom ≠ OutOfFuel.
Proof.
  apply for_each_fuel. intros acc i.
  pose proof (py_getitem_fuel lastcol i). destruct (py_getitem lastcol i); simpl;
    [discriminate | discriminate | congruence].
Qed.

(** Python's [pattern[:-1]] is one symbol shorter than a non-empty
    [pattern]. *)
Lemma pattern_init_length (pattern : str) :
  pattern ≠ [] →
  S (length (take (Z.to_nat (len pattern - 1)) pattern)) = length pattern.
Proof.
  intros H. destruct pattern as [|a p]; [congruence|].
  rewrite length_take. unfold len. simpl length. lia.
Qed.

(** With more fuel than the pattern has symbols the loop returns or raises,
    and the outcome does not depend on the fuel. *)
Lemma bw_while_fuel (lastcol : str) (lf : list Z) (fuel fuel' : nat)
    (top bottom : Z) (pattern : str) :
  (length pattern < fuel)%nat → (length pattern < fuel')%nat →
  bw_while fuel lastcol lf top bottom pattern
  = bw_while fuel' lastcol lf top bottom pattern ∧
  bw_while fuel lastcol lf top bottom pattern ≠ OutOfFuel.
Proof.
  revert fuel' top bottom pattern.
  induction fuel as [|fuel IH]; intros fuel' top bottom pattern Hf Hf'; [lia|].
  destruct fuel' as [|fuel']; [lia|]. simpl.
  destruct (decide (top ≤ bottom)); [|split; [reflexivity | discriminate]].
  destruct (decide (pattern ≠ [])) as [Hne|]; [|split; [reflexivity | discriminate]].
  pose proof (py_getitem_fuel pattern (-1)) as H1.
  destruct (py_getitem pattern (-1)) as [symbol| |]; simpl;
    [|split; [reflexivity | discriminate] | congruence].
  pose proof (current_positions_fuel lastcol symbol top bottom) as H2.
  destruct (current_positions lastcol symbol top bottom) as [positions| |]; simpl;
    [|split; [reflexivity | discriminate] | congruence].
  destruct (decide (positions = [])); [split; [reflexivity | discriminate]|].
  pose proof (py_getitem_fuel positions 0) as H3.
  destruct (py_getitem positions 0) as [p0| |]; simpl;
    [|split; [reflexivity | discriminate] | congruence].
  pose proof (py_getitem_fuel lf p0) as H4.
  destruct (py_getitem lf p0) as [top'| |]; simpl;
    [|split; [reflexivity | discriminate] | congruence].
  pose proof (py_getitem_fuel positions (-1)) as H5.
  destruct (py_getitem positions (-1)) as [p1| |]; simpl;
    [|split; [reflexivity | discriminate] | congruence].
  pose proof (py_getitem_fuel lf p1) as H6.
  destruct (py_getitem lf p1) as [bottom'| |]; simpl;
    [|split; [reflexivity | discriminate] | congruence].
  pose proof (pattern_init_length pattern Hne).
  apply IH; lia.
Qed.

(** C9: [bw_matching] terminates on every input, whatever the columns, the
    pattern and the LF list: an iteration of its loop either ends the call
    or shortens the pattern by one symbol, so that [len(pattern) + 1]
    iterations always suffice, and more fuel does not change the outcome. *)
Theorem bw_matching_terminates (firstcol lastcol pattern : str) (lf : list Z) :
  ∃ out : result Z,
    out ≠ OutOfFuel ∧
    bw_matching firstcol lastcol pattern lf = out ∧
    ∀ fuel, (length pattern < fuel)%nat →
      bw_while fuel lastcol lf 0 (len lastcol - 1) pattern = out.
Proof.
  exists (bw_matching firstcol lastcol pattern lf). unfold bw_matching.
  split; [|split; [reflexivity|]].
  - apply (bw_while_fuel lastcol lf _ (S (length pattern))); lia.
  - intros fuel Hf. apply bw_while_fuel; lia.
Qed.

(** ** Backward search: reading a pattern round a rotation *)

Lemma cyc_match_cons (c : ascii) (Q x : str) :
  cyc_match (c :: Q) x = bool_decide (head x = Some c) && cyc_match Q (rot x 1).
Proof. reflexivity. Qed.

Lemma cyc_match_app (P Q x : str) :
  cyc_match (P ++ Q) x
  = cyc_match P x && cyc_match Q (Nat.iter (length P) (λ y, rot y 1) x).
Proof.
  revert x. induction P as [|c P IH]; intros x; [reflexivity|].
  rewrite <- app_comm_cons, !cyc_match_cons, IH, andb_assoc.
  simpl length. rewrite Nat.iter_succ_r. reflexivity.
Qed.

Lemma rows_rot_1 (text x : str) : x ∈ rows text → rot x 1 ∈ rows text.
Proof.
  intros Hx. apply rows_elem in Hx as (i & Hi & ->). apply rows_elem.
  assert (is_Some ((text ++ ["$"%char]) !! i)) as [a Ha].
  { apply lookup_lt_is_Some_2. rewrite length_app. simpl. lia. }
  rewrite (rot_1_rot _ i a Ha).
  destruct (decide (i = length text)) as [->|Hne].
  - exists 0%nat. split; [lia|]. rewrite rot_0.
    replace (S (length text)) with (length (text ++ ["$"%char]))
      by (rewrite length_app; simpl; lia).
    apply rot_full.
  - exists (S i). split; [lia | reflexivity].
Qed.

Lemma rows_rot_iter (text x : str) (k : nat) :
  x ∈ rows text → Nat.iter k (λ y, rot y 1) x ∈ rows text.
Proof.
  intros Hx. induction k as [|k IH]; [exact Hx|]. simpl. apply rows_rot_1, IH.
Qed.

Lemma rot_1_elem (x : str) (c : ascii) : c ∈ rot x 1 → c ∈ x.
Proof.
  unfold rot. rewrite elem_of_app. intros [H|H].
  - eapply elem_of_drop_1, H.
  - apply elem_of_take in H as (i & Hi & _). eapply list_elem_of_lookup_2, Hi.
Qed.

(** A pattern read round a rotation only uses symbols of the rotation. *)
Lemma cyc_match_elem (P x : str) (c : ascii) :
  cyc_match P x = true → c ∈ P → c ∈ x.
Proof.
  revert x. induction P as [|a P IH]; intros x Hm Hc.
  - apply elem_of_nil in Hc. contradiction.
  - rewrite cyc_match_cons in Hm. apply andb_true_iff in Hm as [Hh Hm].
    apply bool_decide_eq_true in Hh.
    apply elem_of_cons in Hc as [->|Hc].
    + destruct x as [|b x]; [discriminate|]. inversion Hh; subst. left.
    + apply rot_1_elem. apply IH; assumption.
Qed.

(** ** Backward search: the positions of a symbol in a range of rows *)

Lemma range_positions_elem (L : str) (c : ascii) (t b p : nat) :
  p ∈ range_positions L c t b ↔ (t ≤ p ≤ b)%nat ∧ L !! p = Some c.
Proof.
  unfold range_positions. rewrite list_elem_of_filter, elem_of_seq.
  split; intros [H1 H2]; split; try assumption; lia.
Qed.

Lemma filter_seq_sorted (P : nat → Prop) `{∀ i, Decision (P i)} (a k : nat) :
  StronglySorted lt (filter P (seq a k)).
Proof.
  revert a. induction k as [|k IH]; intros a; [constructor|].
  simpl seq. rewrite filter_cons. destruct (decide (P a)) as [_|_]; [|apply IH].
  constructor; [apply IH|]. apply Forall_forall. intros p Hp.
  apply list_elem_of_filter in Hp as [_ Hp]. apply elem_of_seq in Hp. lia.
Qed.

(** The first and the last entry of a non-empty list of positions bound
    all the others. *)
Lemma range_positions_ends (L : str) (c : ascii) (t b : nat) :
  range_positions L c t b ≠ [] →
  ∃ p0 p1,
    py_getitem (Z.of_nat <$> range_positions L c t b) 0 = Ok (Z.of_nat p0) ∧
    py_getitem (Z.of_nat <$> range_positions L c t b) (-1) = Ok (Z.of_nat p1) ∧
    p0 ∈ range_positions L c t b ∧ p1 ∈ range_positions L c t b ∧
    ∀ p, p ∈ range_positions L c t b → (p0 ≤ p ≤ p1)%nat.
Proof.
  intros Hne.
  assert (Hs : StronglySorted lt (range_positions L c t b))
    by apply filter_seq_sorted.
  destruct (range_positions L c t b) as [|p0 rest] eqn:E; [congruence|].
  assert (∃ init p1, p0 :: rest = init ++ [p1]) as (init & p1 & E1).
  { destruct rest as [|q rest' _] using rev_ind.
    - exists [], p0. reflexivity.
    - exists (p0 :: rest'), q. reflexivity. }
  exists p0, p1. split; [reflexivity|]. split.
  { rewrite E1, fmap_app. simpl. apply py_getitem_last. }
  split; [left|]. split.
  { rewrite E1. apply elem_of_app. right. left. }
  intros p Hp. split.
  - apply elem_of_cons in Hp as [->|Hp]; [lia|].
    inversion Hs as [|? ? _ Hall]; subst.
    pose proof (proj1 (Forall_forall _ _) Hall p Hp). lia.
  - rewrite E1 in Hp, Hs. apply elem_of_app in Hp as [Hp|Hp].
    + pose proof (StronglySorted_app_1_elem_of lt init [p1] p p1 Hs Hp
                    ltac:(left)). lia.
    + apply list_elem_of_singleton in Hp. lia.
Qed.

(** The list comprehension of [bw_matching] computes these positions. *)
Lemma current_positions_spec (L : str) (c : ascii) (t b : nat) :
  (b < length L)%nat →
  current_positions L c (Z.of_nat t) (Z.of_nat b)
  = Ok (Z.of_nat <$> range_positions L c t b).
Proof.
  intros Hb. unfold current_positions.
  pose (Inv := λ (i : nat) (acc : list Z),
    acc = Z.of_nat <$> filter (λ i, L !! i = Some c) (seq t i)).
  match goal with |- for_each ?l ?body ?s = _ =>
    destruct (for_each_inv l body Inv s) as (acc & Hrun & Hacc) end.
  - reflexivity.
  - unfold Inv. intros i z acc Hi ->. apply py_range_lookup in Hi as [-> Hi].
    assert (t + i < length L)%nat as Hlt by lia.
    destruct (lookup_lt_is_Some_2 L _ Hlt) as [a Ha].
    rewrite <- Nat2Z.inj_add. rewrite (py_getitem_nat _ _ _ Ha), bind_Ok.
    eexists. split; [reflexivity|].
    rewrite seq_S, filter_app, fmap_app, filter_cons, filter_nil.
    destruct (decide (a = c)) as [->|Hne].
    + rewrite decide_True by exact Ha. reflexivity.
    + rewrite decide_False by congruence. simpl. rewrite app_nil_r. reflexivity.
  - rewrite Hrun, Hacc. unfold range_positions. rewrite py_range_length.
    do 4 f_equal. lia.
Qed.

(** ** Backward search: one step narrows the range of rows *)

Lemma count_interval {A : Type} (p : A → bool) (M : list A) (t b : nat) :
  (t ≤ b < length M)%nat →
  (∀ r x, M !! r = Some x → (p x = true ↔ (t ≤ r ≤ b)%nat)) →
  count p M = (S b - t)%nat.
Proof.
  intros Hb Hp.
  rewrite <- (take_drop t M). rewrite <- (take_drop (S b - t) (drop t M)).
  rewrite !count_app.
  rewrite (count_false p (take t M)).
  2:{ apply Forall_forall. intros x Hx. apply elem_of_take in Hx as (r & Hr & Hlt).
      destruct (p x) eqn:E; [|reflexivity]. apply (Hp r x Hr) in E. lia. }
  rewrite (count_true p (take (S b - t) (drop t M))).
  2:{ apply Forall_forall. intros x Hx. apply elem_of_take in Hx as (r & Hr & Hlt).
      rewrite lookup_drop in Hr. apply (Hp _ x Hr). lia. }
  rewrite (count_false p (drop (S b - t) (drop t M))).
  2:{ apply Forall_forall. intros x Hx. apply list_elem_of_lookup in Hx as [r Hr].
      rewrite !lookup_drop in Hr.
      destruct (p x) eqn:E; [|reflexivity]. apply (Hp _ x Hr) in E. lia. }
  rewrite length_take, length_drop. lia.
Qed.

Lemma last_column_lookup (text : str) (r : nat) (x : str) :
  rows text !! r = Some x → (lastc <$> rows text) !! r = Some (lastc x).
Proof. intros H. rewrite list_lookup_fmap, H. reflexivity. Qed.

Lemma lastc_rot_1 (y : str) (c : ascii) : head y = Some c → lastc (rot y 1) = c.
Proof.
  destruct y as [|a y]; [discriminate|]. simpl. intros H. inversion H; subst.
  rewrite rot_1_cons. apply lastc_snoc.
Qed.

Lemma head_rotr1 (x : str) : x ≠ [] → head (rotr1 x) = Some (lastc x).
Proof.
  destruct x as [|c b _] using rev_ind; [congruence|]. intros _.
  rewrite rotr1_snoc, lastc_snoc. reflexivity.
Qed.

(** No position holds [c]: no row starts with [c] followed by [Q]. *)
Lemma search_step_empty (text Q : str) (c : ascii) (t b : nat) (y : str) :
  search_inv text Q t b →
  range_positions (lastc <$> rows text) c t b = [] →
  y ∈ rows text → cyc_match (c :: Q) y = false.
Proof.
  intros [Hb Hinv] Hnil Hy.
  destruct (cyc_match (c :: Q) y) eqn:E; [|reflexivity]. exfalso.
  rewrite cyc_match_cons in E. apply andb_true_iff in E as [Hh Hm].
  apply bool_decide_eq_true in Hh.
  pose proof (rows_rot_1 text y Hy) as Hx.
  apply list_elem_of_lookup in Hx as [r Hr].
  pose proof (proj1 (Hinv r _ Hr) Hm) as Hrange.
  assert (r ∈ range_positions (lastc <$> rows text) c t b) as Hin.
  { apply range_positions_elem. split; [exact Hrange|].
    rewrite (last_column_lookup text r _ Hr), (lastc_rot_1 y c Hh). reflexivity. }
  rewrite Hnil in Hin. apply elem_of_nil in Hin. exact Hin.
Qed.

(** Some positions hold [c]: the rows that start with [c] followed by [Q]
    are the rows between the LF images of the first and the last of them. *)
Lemma search_step (text Q : str) (c : ascii) (t b p0 p1 : nat) :
  "$"%char ∉ text →
  search_inv text Q t b →
  p0 ∈ range_positions (lastc <$> rows text) c t b →
  p1 ∈ range_positions (lastc <$> rows text) c t b →
  (∀ p, p ∈ range_positions (lastc <$> rows text) c t b → (p0 ≤ p ≤ p1)%nat) →
  search_inv text (c :: Q)
    (lf_at char_ltb (lastc <$> rows text) p0 c)
    (lf_at char_ltb (lastc <$> rows text) p1 c).
Proof.
  intros Hs [Hb Hinv] Hp0 Hp1 Hends.
  set (L := lastc <$> rows text) in *.
  pose proof (rows_NoDup text Hs) as Hnd.
  pose proof (proj1 (range_positions_elem L c t b p0) Hp0) as [Hr0 HL0].
  pose proof (proj1 (range_positions_elem L c t b p1) Hp1) as [Hr1 HL1].
  pose proof (Hends p0 Hp0) as H01.
  assert (HLlen : length L = length (rows text)) by (unfold L; apply length_fmap).
  split.
  { split.
    - unfold lf_at. pose proof (count_take_le (eq_to c) L p0 p1). lia.
    - rewrite <- HLlen. apply (lf_at_lt char_ltb char_strict_total), HL1. }
  intros r' y Hr'.
  assert (Hy : y ∈ rows text) by (eapply list_elem_of_lookup_2, Hr').
  pose proof (rows_rot_1 text y Hy) as Hx.
  apply list_elem_of_lookup in Hx as [r Hr].
  pose proof (lf_rotr1 text r _ Hs Hr) as Hlf. rewrite rotr1_rot_1 in Hlf. fold L in Hlf.
  pose proof (NoDup_lookup _ _ _ _ Hnd Hlf Hr') as Hrr'.
  pose proof (last_column_lookup text r _ Hr) as HLr. fold L in HLr.
  rewrite cyc_match_cons. split.
  - intros E. apply andb_true_iff in E as [Hh Hm].
    apply bool_decide_eq_true in Hh.
    pose proof (proj1 (Hinv r _ Hr) Hm) as Hrange.
    rewrite (lastc_rot_1 y c Hh) in HLr, Hrr'.
    assert (r ∈ range_positions L c t b) as Hin
      by (apply range_positions_elem; split; assumption).
    pose proof (Hends r Hin) as Hr01. subst r'. unfold lf_at.
    pose proof (count_take_le (eq_to c) L p0 r).
    pose proof (count_take_le (eq_to c) L r p1). lia.
  - intros Hrange. remember (lastc (rot y 1)) as c' eqn:Ec'.
    assert (c' = c) as Hc.
    { destruct (ltb_cases char_ltb char_strict_total c' c) as [Hlt|[Heq|Hgt]];
        [exfalso|exact Heq|exfalso].
      - pose proof (count_lt_lt char_ltb char_strict_total c c' L Hlt).
        pose proof (rank_lt_total c' L r HLr).
        unfold lf_at in *. lia.
      - pose proof (count_lt_lt char_ltb char_strict_total c' c L Hgt).
        pose proof (rank_lt_total c L p1 HL1).
        unfold lf_at in *. lia. }
    assert (Hl : lastc (rot y 1) = c) by congruence.
    clear Ec'. subst c'.
    assert (p0 ≤ r ≤ p1)%nat as Hr01.
    { unfold lf_at in *. split.
      - apply (rank_le_inv c L); [assumption..|lia].
      - apply (rank_le_inv c L); [assumption..|lia]. }
    apply andb_true_iff. split.
    + apply bool_decide_eq_true.
      assert (rot y 1 ≠ []) as Hne by (eapply rows_nonempty, list_elem_of_lookup_2, Hr).
      pose proof (head_rotr1 _ Hne) as Hh. rewrite rotr1_rot_1 in Hh.
      rewrite Hh, Hl. reflexivity.
    + apply (Hinv r _ Hr). lia.
Qed.

(** ** Backward search: the loop counts the rows that start with the pattern *)

Lemma bw_while_S (fuel : nat) (lastcol_str : str) (last_to_first_idx : list Z)
    (top_pointer bottom_pointer : Z) (pattern : str) :
  bw_while (S fuel) lastcol_str last_to_first_idx top_pointer bottom_pointer pattern
  = if decide (top_pointer ≤ bottom_pointer) then
      if decide (pattern ≠ []) then
        symbol ← py_getitem pattern (-1);
        let pattern' := take (Z.to_nat (len pattern - 1)) pattern in
        positions ← current_positions lastcol_str symbol top_pointer bottom_pointer;
        if decide (positions = []) then Ok 0
        else
          p0 ← py_getitem positions 0;
          top' ← py_getitem last_to_first_idx p0;
          p1 ← py_getitem positions (-1);
          bottom' ← py_getitem last_to_first_idx p1;
          bw_while fuel lastcol_str last_to_first_idx top' bottom' pattern'
      else Ok (bottom_pointer - top_pointer + 1)
    else Ok 0.
Proof. reflexivity. Qed.

Lemma bw_while_spec (text P : str) :
  "$"%char ∉ text →
  ∀ (Q : str) (fuel t b : nat),
    search_inv text Q t b → (length P < fuel)%nat →
    bw_while fuel (lastc <$> rows text) (lf_list (lastc <$> rows text))
      (Z.of_nat t) (Z.of_nat b) P
    = Ok (Z.of_nat (count (cyc_match (P ++ Q)) (rows text))).
Proof.
  intros Hs. set (L := lastc <$> rows text).
  induction P as [|c P IH] using rev_ind; intros Q fuel t b Hinv Hfuel.
  - destruct fuel as [|fuel]; [simpl in Hfuel; lia|].
    rewrite bw_while_S. destruct Hinv as [Hb Hinv].
    rewrite decide_True by lia. rewrite decide_False by (intros H; apply H; reflexivity).
    rewrite app_nil_l, (count_interval _ _ t b Hb Hinv). f_equal. lia.
  - destruct fuel as [|fuel]; [lia|].
    rewrite length_app in Hfuel. simpl in Hfuel.
    rewrite bw_while_S. pose proof Hinv as [Hb _].
    rewrite decide_True by lia.
    rewrite decide_True by (intros H; apply app_eq_nil in H as [_ H]; discriminate).
    rewrite py_getitem_last, bind_Ok. cbv zeta.
    assert (take (Z.to_nat (len (P ++ [c]) - 1)) (P ++ [c]) = P) as ->.
    { apply take_app_length'. unfold len. rewrite length_app. simpl. lia. }
    assert (HLlen : length L = length (rows text)) by (unfold L; apply length_fmap).
    rewrite current_positions_spec by lia. rewrite bind_Ok.
    rewrite <- app_assoc. simpl app.
    destruct (decide (Z.of_nat <$> range_positions L c t b = [])) as [Hnil|Hne].
    + apply fmap_nil_inv in Hnil.
      assert (count (cyc_match (P ++ c :: Q)) (rows text) = 0%nat) as ->;
        [|reflexivity].
      apply count_false, Forall_forall. intros x Hx.
      rewrite cyc_match_app. apply andb_false_iff. right.
      apply (search_step_empty text Q c t b); [exact Hinv | exact Hnil|].
      apply rows_rot_iter, Hx.
    + assert (range_positions L c t b ≠ []) as Hne' by (intros H; apply Hne; rewrite H; reflexivity).
      destruct (range_positions_ends L c t b Hne')
        as (p0 & p1 & Hg0 & Hg1 & Hp0 & Hp1 & Hends).
      rewrite Hg0, bind_Ok.
      pose proof (proj1 (range_positions_elem L c t b p0) Hp0) as [_ HL0].
      pose proof (proj1 (range_positions_elem L c t b p1) Hp1) as [_ HL1].
      rewrite (py_getitem_nat _ _ _ (lf_list_lookup L p0 c HL0)), bind_Ok.
      rewrite Hg1, bind_Ok.
      rewrite (py_getitem_nat _ _ _ (lf_list_lookup L p1 c HL1)), bind_Ok.
      apply IH; [|lia].
      apply (search_step text Q c t b p0 p1); assumption.
Qed.

Lemma search_inv_init (text : str) : search_inv text [] 0 (length text).
Proof.
  split; [rewrite rows_length; lia|].
  intros r x Hr. simpl. apply lookup_lt_Some in Hr. rewrite rows_length in Hr.
  split; [lia | reflexivity].
Qed.

(** [bwa_search] never raises on a text without sentinel and returns the
    number of rotations of the text that start with the pattern. *)
Lemma bwa_search_spec (text P : str) :
  "$"%char ∉ text →
  bwa_search text P = Ok (Z.of_nat (count (cyc_match P) (rows text))).
Proof.
  intros Hs. unfold bwa_search. rewrite bwt_spec, bind_Ok. cbv zeta.
  rewrite last_to_first_index_spec, bind_Ok. unfold bw_matching.
  assert (len (lastc <$> rows text) - 1 = Z.of_nat (length text)) as ->.
  { unfold len. rewrite length_fmap, rows_length. lia. }
  pose proof (bw_while_spec text P Hs [] (S (length P)) 0%nat (length text)
                (search_inv_init text) ltac:(lia)) as H.
  rewrite app_nil_r in H. exact H.
Qed.

(** ** Backward search: the empty pattern *)

Lemma empty_pattern_full_range (S : str) : bwa_search S [] = Ok (len S + 1).
Proof.
  unfold bwa_search. rewrite bwt_spec, bind_Ok. cbv zeta.
  rewrite last_to_first_index_spec, bind_Ok. unfold bw_matching.
  assert (len (lastc <$> rows S) = len S + 1) as ->.
  { unfold len. rewrite length_fmap, rows_length. lia. }
  simpl length. rewrite bw_while_S.
  pose proof (len_nonneg S).
  rewrite decide_True by lia.
  rewrite decide_False by (intros H'; apply H'; reflexivity).
  f_equal. lia.
Qed.

(** C7: for every string [S] that does not contain the sentinel, the search
    for the empty pattern returns the size of the whole range of rows,
    [bwa_search(S, "") == len(S) + 1]; it is a value, not an error and not
    zero. *)
Theorem bwa_search_empty (S : str) :
  "$"%char ∉ S → bwa_search S [] = Ok (len S + 1) ∧ len S + 1 ≠ 0.
Proof.
  intros _. split; [apply empty_pattern_full_range|].
  pose proof (len_nonneg S). lia.
Qed.

Lemma bwa_search_empty_witness :
  bwa_search (py "ACAGTGAT") [] = Ok (len (py "ACAGTGAT") + 1) ∧
  len (py "ACAGTGAT") + 1 ≠ 0.
Proof.
  apply bwa_search_empty.
  apply (bool_decide_unpack _). vm_compute. exact I.
Defined.

(** ** Backward search: the count of occurrences *)

Lemma rot_elem (T : str) (i : nat) (c : ascii) : c ∈ rot T i → c ∈ T.
Proof.
  unfold rot. rewrite elem_of_app. intros [H|H].
  - eapply elem_of_drop_1, H.
  - apply elem_of_take in H as (j & Hj & _). eapply list_elem_of_lookup_2, Hj.
Qed.

(** Reading a sentinel-free pattern round the [i]-th rotation is reading
    it in the text at offset [i]. *)
Lemma cyc_match_rot (text P : str) (i : nat) :
  "$"%char ∉ P → (i ≤ length text)%nat →
  cyc_match P (rot (text ++ ["$"%char]) i)
  = bool_decide (take (length P) (drop i text) = P).
Proof.
  revert i. induction P as [|c P IH]; intros i Hs Hi.
  - symmetry. apply bool_decide_eq_true_2. reflexivity.
  - assert (c ≠ "$"%char) as Hc by (intros ->; apply Hs; left).
    assert ("$"%char ∉ P) as Hs' by (intros H; apply Hs; right; exact H).
    rewrite cyc_match_cons.
    destruct (decide (i = length text)) as [->|Hne].
    + rewrite rot_sentinel, drop_all, firstn_all by lia.
      rewrite app_nil_l, take_nil. cbn [head].
      rewrite (bool_decide_eq_false_2 (Some "$"%char = Some c)) by congruence.
      rewrite (bool_decide_eq_false_2 ([] = c :: P)) by discriminate. reflexivity.
    + assert (is_Some (text !! i)) as [a Ha] by (apply lookup_lt_is_Some_2; lia).
      assert ((text ++ ["$"%char]) !! i = Some a) as Ha'.
      { rewrite lookup_app_l by (eapply lookup_lt_Some, Ha). exact Ha. }
      rewrite (rot_1_rot _ i a Ha'), IH by (try assumption; lia).
      assert (head (rot (text ++ ["$"%char]) i) = Some a) as ->.
      { unfold rot. rewrite (drop_S _ _ _ Ha'). reflexivity. }
      rewrite (drop_S _ _ _ Ha). cbn [length take].
      destruct (decide (a = c)) as [->|Hac].
      * rewrite (bool_decide_eq_true_2 (Some c = Some c)) by reflexivity.
        rewrite andb_true_l.
        apply bool_decide_ext. split; [intros ->; reflexivity|].
        intros H; inversion H as [H1]; rewrite H1; exact H1.
      * rewrite (bool_decide_eq_false_2 (Some a = Some c)) by congruence.
        rewrite (bool_decide_eq_false_2 (a :: _ = c :: P)) by congruence.
        reflexivity.
Qed.

Lemma length_filter_fmap_count {A B : Type} (P : B → Prop) `{∀ y, Decision (P y)}
    (f : A → B) (l : list A) :
  length (filter P (f <$> l)) = count (λ x, bool_decide (P (f x))) l.
Proof.
  induction l as [|x l IH]; [reflexivity|].
  rewrite fmap_cons, filter_cons. cbn [count]. destruct (decide (P (f x))) as [Hp|Hp].
  - rewrite bool_decide_eq_true_2 by exact Hp. simpl. rewrite IH. reflexivity.
  - rewrite bool_decide_eq_false_2 by exact Hp. simpl. exact IH.
Qed.

(** The naive count, as a count over the offsets [0 .. len S - len P]. *)
Lemma naive_count_spec (text P : str) :
  naive_count text P
  = Z.of_nat (count (λ i, bool_decide (take (length P) (drop i text) = P))
                (seq 0 (Z.to_nat (len text - len P + 1)))).
Proof.
  unfold naive_count, py_range, len at 1. f_equal.
  rewrite length_filter_fmap_count. rewrite Z.sub_0_r.
  apply count_ext, Forall_forall. intros i _. cbv beta.
  replace (Z.to_nat (0 + Z.of_nat i)) with i by lia. reflexivity.
Qed.

(** The rotations that start with a sentinel-free pattern are as many as
    the occurrences of the pattern in the text. *)
Lemma count_rows_naive (text P : str) :
  "$"%char ∉ P → P ≠ [] →
  Z.of_nat (count (cyc_match P) (rows text)) = naive_count text P.
Proof.
  intros Hs Hne. rewrite naive_count_spec. f_equal.
  rewrite (count_Permutation _ _ _ (rows_Permutation text)).
  rewrite cyclic_rotations_rot, count_fmap.
  set (m := Z.to_nat (len text - len P + 1)).
  assert (length P ≠ 0)%nat as HP by (destruct P; [congruence | simpl; lia]).
  assert (length (text ++ ["$"%char]) = m + (S (length text) - m))%nat as ->.
  { rewrite length_app. simpl. unfold m, len. lia. }
  rewrite seq_app, count_app. simpl.
  rewrite (count_false _ (seq m _)).
  - rewrite Nat.add_0_r. apply count_ext, Forall_forall. intros i Hi.
    apply elem_of_seq in Hi. simpl. apply cyc_match_rot; [exact Hs|].
    unfold m, len in Hi. lia.
  - apply Forall_forall. intros i Hi. apply elem_of_seq in Hi. simpl.
    rewrite cyc_match_rot by (try exact Hs; lia).
    apply bool_decide_eq_false. intros Heq.
    apply (f_equal length) in Heq. rewrite length_take, length_drop in Heq.
    unfold m, len in Hi. lia.
Qed.

(** C2 (defect of the code): [bwa_search] does not count the occurrences
    of a pattern that holds the sentinel.  The pattern ["$"] occurs nowhere
    in ["A"] (the count by slices, the one [benchmark_search_methods]
    compares with, is 0), yet [bwa_search("A", "$")] returns 1: the
    transform of ["A"] is ["A$"], and the search counts the rotation of
    ["A$"] that starts with the appended sentinel. *)
Theorem bwa_search_sentinel_pattern_miscount :
  ("$"%char ∉ py "A") ∧ py "$" ≠ [] ∧
  bwt (py "A") = Ok (py "A$") ∧
  bwa_search (py "A") (py "$") = Ok 1 ∧ naive_count (py "A") (py "$") = 0.
Proof.
  split; [apply (bool_decide_unpack _); vm_compute; exact I|].
  split; [discriminate|]. repeat split; vm_compute; reflexivity.
Qed.

(** C8 (defect of the code): [bwa_search] does not return 0 for every
    pattern with a symbol that the text lacks.  ["$"] is not a symbol of
    ["AB"] and ["B$A"] occurs nowhere in it (the count by slices is 0), yet
    [bwa_search("AB", "B$A")] returns 1: the transform of ["AB"] is
    ["B$A"], and the search counts the rotation ["B$A"] of ["AB$"], which
    runs across the appended sentinel. *)
Theorem bwa_search_absent_sentinel_nonzero :
  ("$"%char ∉ py "AB") ∧ ("$"%char ∈ py "B$A") ∧
  bwt (py "AB") = Ok (py "B$A") ∧
  bwa_search (py "AB") (py "B$A") = Ok 1 ∧
  naive_count (py "AB") (py "B$A") = 0.
Proof.
  split; [apply (bool_decide_unpack _); vm_compute; exact I|].
  split; [apply (bool_decide_unpack _); vm_compute; exact I|].
  repeat split; vm_compute; reflexivity.
Qed.

(** ** The compression statistics never raise *)

Lemma count_runs_total (s : str) : ∃ n, count_runs s = Ok n.
Proof.
  unfold count_runs. destruct (decide (s = [])); [eauto|].
  match goal with |- ∃ n, for_each ?l ?body ?s0 = _ =>
    destruct (for_each_inv l body (λ _ _, True) s0) as (runs & Hrun & _) end.
  - exact I.
  - intros k i runs Hi _. apply py_range_lookup in Hi as [-> Hk].
    assert (S k < length s)%nat as Hlt by (unfold len in Hk; lia).
    destruct (lookup_lt_is_Some_2 s (S k) Hlt) as [a Ha].
    destruct (lookup_lt_is_Some_2 s k ltac:(lia)) as [b Hb].
    replace (1 + Z.of_nat k) with (Z.of_nat (S k)) by lia.
    rewrite (py_getitem_nat _ _ _ Ha), bind_Ok.
    replace (Z.of_nat (S k) - 1) with (Z.of_nat k) by lia.
    rewrite (py_getitem_nat _ _ _ Hb), bind_Ok.
    eexists. split; [reflexivity | exact I].
  - eauto.
Qed.

Section floats_total.
Context {float : Type}.
Variables (fdiv : Z → Z → float) (flog2 : float → float)
  (fmul fsub : float → float → float) (float_of_int : Z → float)
  (fpos : float → bool).

Lemma calculate_entropy_total (s : str) :
  ∃ e, calculate_entropy fdiv flog2 fmul fsub float_of_int fpos s = Ok e.
Proof.
  unfold calculate_entropy. destruct (decide (s = [])) as [|Hne]; [eauto|].
  cbv zeta.
  match goal with |- ∃ e, for_each ?l ?body ?s0 = _ =>
    destruct (for_each_inv l body (λ _ _, True) s0) as (e & Hrun & _) end.
  - exact I.
  - intros k cnt entropy _ _. unfold py_truediv.
    rewrite decide_False by (destruct s; [congruence | unfold len; simpl; lia]).
    rewrite bind_Ok. unfold py_log2.
    destruct (fpos (fdiv cnt (len s))); [rewrite bind_Ok|];
      (eexists; split; [reflexivity | exact I]).
  - eauto.
Qed.

Lemma analyze_compression_Ok (text : str) :
  ∃ st, analyze_compression fdiv flog2 fmul fsub float_of_int fpos text = Ok st ∧
    count_runs text = Ok (original_runs st) ∧
    (bwt text ≫= count_runs) = Ok (bwt_runs st) ∧
    (original_runs st ≤ 0 → run_reduction_ratio st = PyInt 0).
Proof.
  unfold analyze_compression. rewrite bwt_spec, !bind_Ok.
  destruct (count_runs_total text) as [r1 ->]. rewrite bind_Ok.
  destruct (count_runs_total (lastc <$> rows text)) as [r2 ->]. rewrite bind_Ok.
  destruct (calculate_entropy_total text) as [e1 ->]. rewrite bind_Ok.
  destruct (calculate_entropy_total (lastc <$> rows text)) as [e2 ->].
  rewrite bind_Ok.
  destruct (decide (r1 > 0)) as [Hpos|Hneg].
  - unfold py_truediv. rewrite decide_False by lia. rewrite !bind_Ok.
    eexists. split; [reflexivity|]. cbn. repeat split. lia.
  - rewrite bind_Ok. eexists. split; [reflexivity|]. cbn. repeat split.
Qed.

End floats_total.

(** C10: [analyze_compression] returns its dictionary for every input, the
    empty string included: the division of the run counts is only done
    when [original_runs > 0].  For the empty string, [original_runs == 0],
    [bwt_runs == 1] and [run_reduction_ratio == 0]; no [ZeroDivisionError]
    is raised. *)
Theorem analyze_compression_total {float : Type}
    (fdiv : Z → Z → float) (flog2 : float → float)
    (fmul fsub : float → float → float) (float_of_int : Z → float)
    (fpos : float → bool) :
  (∀ text, ∃ st,
     analyze_compression fdiv flog2 fmul fsub float_of_int fpos text = Ok st) ∧
  (∃ st,
     analyze_compression fdiv flog2 fmul fsub float_of_int fpos [] = Ok st ∧
     original_runs st = 0 ∧ bwt_runs st = 1 ∧
     run_reduction_ratio st = PyInt 0).
Proof.
  split.
  - intros text.
    destruct (analyze_compression_Ok fdiv flog2 fmul fsub float_of_int fpos text)
      as (st & Hst & _). eauto.
  - destruct (analyze_compression_Ok fdiv flog2 fmul fsub float_of_int fpos [])
      as (st & Hst & H1 & H2 & H3).
    exists st. split; [exact Hst|].
    assert (count_runs [] = Ok 0) as R1 by reflexivity.
    assert ((bwt [] ≫= count_runs) = Ok 1) as R2 by (vm_compute; reflexivity).
    assert (original_runs st = 0) as E1 by congruence.
    assert (bwt_runs st = 1) as E2 by congruence.
    split; [exact E1|]. split; [exact E2|]. apply H3. lia.
Qed.

(** ** The worked examples of the test suite *)

Example test_cyclic_rotations :
  cyclic_rotations (py "ACG") = [py "ACG$"; py "CG$A"; py "G$AC"; py "$ACG"].
Proof. reflexivity. Qed.

Example test_lexsort_list :
  lexsort_list [py "ACG$"; py "CG$A"; py "G$AC"; py "$ACG"]
  = [py "$ACG"; py "ACG$"; py "CG$A"; py "G$AC"].
Proof. vm_compute. reflexivity. Qed.

Example test_bwt_basic : bwt (py "ACAGTGAT") = Ok (py "T$CGATAAG").
Proof. vm_compute. reflexivity. Qed.

(** The two short cases of [test_bwt_basic] expect ["$A"] and ["A$A"]; the
    sorted rotations of ["A$"] and ["AA$"] end in other symbols. *)
Example test_bwt_short :
  bwt (py "A") = Ok (py "A$") ∧ bwt (py "AA") = Ok (py "AA$").
Proof. split; vm_compute; reflexivity. Qed.

Example test_invert_bwt : invert_bwt (py "T$CGATAAG") = Ok (py "ACAGTGAT").
Proof. vm_compute. reflexivity. Qed.

Example test_pattern_matching :
  bwa_search (py "TCGACGAT") (py "CGA") = Ok 2 ∧
  bwa_search (py "ATCGATCGATCG") (py "ATCG") = Ok 3 ∧
  bwa_search (py "AAAA") (py "A") = Ok 4 ∧
  bwa_search (py "ABCD") (py "XYZ") = Ok 0.
Proof. repeat split; vm_compute; reflexivity. Qed.

(** Called on its own with an LF list shorter than the last column,
    [bw_matching] ends by raising [IndexError]. *)
Example bw_matching_short_lf :
  bw_matching [] (py "A") (py "A") [] = Raise IndexError.
Proof. vm_compute. reflexivity. Qed.

(** * Further properties of the code *)

(** ** Rotations and their sorting *)

Lemma rot_Permutation (T : str) (i : nat) : rot T i ≡ₚ T.
Proof.
  unfold rot. rewrite Permutation_app_comm, take_drop. reflexivity.
Qed.

(** X1: [cyclic_rotations text] has [len text + 1] entries; the first one
    is [text + "$"]; every entry has [len text + 1] symbols and is a
    rearrangement of [text + "$"]. *)
Theorem cyclic_rotations_shape (text : str) :
  length (cyclic_rotations text) = S (length text) ∧
  cyclic_rotations text !! 0%nat = Some (text ++ ["$"%char]) ∧
  ∀ x, x ∈ cyclic_rotations text →
    length x = S (length text) ∧ x ≡ₚ text ++ ["$"%char].
Proof.
  split; [apply cyclic_rotations_length|]. split.
  - rewrite cyclic_rotations_rot, list_lookup_fmap, lookup_seq_lt
      by (rewrite length_app; simpl; lia).
    simpl. rewrite rot_0. reflexivity.
  - intros x Hx. rewrite cyclic_rotations_rot in Hx.
    apply list_elem_of_fmap in Hx as (i & -> & _). split.
    + rewrite rot_length, length_app. simpl. lia.
    + apply rot_Permutation.
Qed.

(** X2: the rotations of a text without sentinel are pairwise distinct. *)
Theorem cyclic_rotations_distinct (text : str) :
  "$"%char ∉ text → NoDup (cyclic_rotations text).
Proof. apply cyclic_rotations_NoDup. Qed.

Lemma cyclic_rotations_distinct_witness : NoDup (cyclic_rotations (py "ACG")).
Proof.
  apply cyclic_rotations_distinct.
  apply (bool_decide_unpack _). vm_compute. exact I.
Defined.

(** Without the hypothesis the rotations can coincide: the two rotations
    of ["$" + "$"] are equal. *)
Example cyclic_rotations_sentinel_text :
  cyclic_rotations (py "$") = [py "$$"; py "$$"].
Proof. reflexivity. Qed.

(** X3: [lexsort_list l] is a rearrangement of [l] in which no entry is
    greater than a later one; sorting again changes nothing. *)
Theorem lexsort_list_sorted (l : list str) :
  lexsort_list l ≡ₚ l ∧
  (∀ i j x y, lexsort_list l !! i = Some x → lexsort_list l !! j = Some y →
     (i < j)%nat → str_ltb y x = false) ∧
  lexsort_list (lexsort_list l) = lexsort_list l.
Proof.
  pose proof (sorted_StronglySorted str_ltb str_strict_total l) as Hs.
  split; [apply sorted_Permutation|]. split.
  - intros i j x y Hi Hj Hlt.
    exact (StronglySorted_lookup_lt _ _ i j x y Hs Hi Hj Hlt).
  - apply (sorted_unique str_ltb str_strict_total).
    + apply sorted_StronglySorted, str_strict_total.
    + exact Hs.
    + apply sorted_Permutation.
Qed.

(** X4: the order of the input does not matter to [lexsort_list]. *)
Theorem lexsort_list_Permutation (l1 l2 : list str) :
  l1 ≡ₚ l2 → lexsort_list l1 = lexsort_list l2.
Proof. apply (sorted_perm_eq str_ltb str_strict_total). Qed.

Lemma lexsort_list_Permutation_witness :
  lexsort_list [py "B"; py "A"] = lexsort_list [py "A"; py "B"].
Proof.
  apply lexsort_list_Permutation. apply perm_swap.
Defined.

(** ** The first column *)

Lemma heads_sorted (M : list str) :
  StronglySorted (not_gt str_ltb) M → Forall (λ x, x ≠ []) M →
  StronglySorted (not_gt char_ltb) (headc <$> M).
Proof.
  induction 1 as [|x M HM IH Hx]; intros Hne; [constructor|].
  inversion Hne as [|? ? Hx0 HM0]; subst. rewrite fmap_cons.
  constructor; [apply IH, HM0|].
  apply Forall_fmap, Forall_forall. intros y Hy. simpl.
  pose proof (proj1 (Forall_forall _ _) Hx y Hy) as Hxy.
  pose proof (proj1 (Forall_forall _ _) HM0 y Hy) as Hy0.
  destruct x as [|a x]; [congruence|]. destruct y as [|b y]; [congruence|].
  unfold not_gt in *. rewrite str_ltb_cons in Hxy.
  apply orb_false_iff in Hxy as [Hab _]. exact Hab.
Qed.

Lemma first_column_heads (text : str) :
  last_to_first_string (lastc <$> rows text) = headc <$> rows text.
Proof.
  apply (sorted_unique char_ltb char_strict_total).
  - apply sorted_StronglySorted, char_strict_total.
  - apply heads_sorted; [apply rows_sorted|].
    apply Forall_forall. intros x Hx. eapply rows_nonempty, Hx.
  - unfold last_to_first_string. rewrite sorted_Permutation.
    rewrite last_column_Permutation.
    rewrite rows_Permutation, cyclic_rotations_rot, headc_rotations. reflexivity.
Qed.

(** X5: [last_to_first_string] applied to the transform of a text gives
    the first symbols of the sorted rotations of the text, row by row. *)
Theorem first_column_of_table (text : str) :
  ∃ L, bwt text = Ok L ∧
    Some <$> last_to_first_string L
    = head <$> lexsort_list (cyclic_rotations text).
Proof.
  exists (lastc <$> rows text). split; [apply bwt_spec|].
  rewrite first_column_heads. unfold rows.
  rewrite <- list_fmap_compose. apply list_fmap_ext. intros i x Hx. simpl.
  destruct x as [|a x]; [|reflexivity].
  exfalso. eapply (rows_nonempty text), eq_refl.
  eapply list_elem_of_lookup_2, Hx.
Qed.

(** ** What the LF and FL lists hold *)

(** X6: for every string [L], entry [i] of [last_to_first_index L] is a
    position of the first column [sorted(L)] that holds the symbol [L[i]],
    and the entries are ordered as the pairs (symbol, position) are:
    [LF[i] < LF[j]] exactly when [L[i] < L[j]], or [L[i] == L[j]] and
    [i < j]. *)
Theorem last_to_first_index_stable (L : str) :
  ∃ LF, last_to_first_index L = Ok LF ∧ len LF = len L ∧
    ∀ i j a b, L !! i = Some a → L !! j = Some b →
      ∃ p q, LF !! i = Some (Z.of_nat p) ∧ LF !! j = Some (Z.of_nat q) ∧
        last_to_first_string L !! p = Some a ∧
        ((p < q)%nat ↔
         char_ltb a b = true ∨ (a = b ∧ (i < j)%nat)).
Proof.
  exists (lf_list L). split; [apply last_to_first_index_spec|].
  split; [unfold len; rewrite lf_list_length; reflexivity|].
  assert (Hlt : ∀ i j a b, L !! i = Some a → L !! j = Some b →
            char_ltb a b = true ∨ (a = b ∧ (i < j)%nat) →
            (lf_at char_ltb L i a < lf_at char_ltb L j b)%nat).
  { intros i j a b Hi Hj [Hab|[-> Hij]]; unfold lf_at.
    - pose proof (count_lt_lt char_ltb char_strict_total b a L Hab).
      pose proof (rank_lt_total a L i Hi). lia.
    - pose proof (rank_lt b L i j Hi Hij). lia. }
  intros i j a b Hi Hj.
  exists (lf_at char_ltb L i a), (lf_at char_ltb L j b).
  split; [apply lf_list_lookup, Hi|]. split; [apply lf_list_lookup, Hj|].
  split; [apply first_column_at_lf, Hi|].
  split; [|apply Hlt; assumption].
  intros Hpq.
  destruct (ltb_cases char_ltb char_strict_total a b) as [Hab|[->|Hba]].
  - left. exact Hab.
  - right. split; [reflexivity|].
    destruct (decide (i < j)%nat) as [|Hn]; [assumption|]. exfalso.
    destruct (decide (i = j)) as [->|Hne]; [lia|].
    assert (j < i)%nat as Hji by lia.
    pose proof (Hlt j i b b Hj Hi (or_intror (conj eq_refl Hji))). lia.
  - exfalso. pose proof (Hlt j i b a Hj Hi (or_introl Hba)). lia.
Qed.

(** X7: for every string [L], entry [j] of [first_to_last_index L] is a
    position of [L] that holds the symbol of the first column at [j], and
    equal symbols keep their order: it is the occurrence of that symbol in
    [L] that has as many equal symbols before it as position [j] has in the
    first column. *)
Theorem first_to_last_index_same_symbol (L : str) :
  ∃ FL, first_to_last_index L = Ok FL ∧ len FL = len L ∧
    ∀ j c, last_to_first_string L !! j = Some c →
      ∃ p, FL !! j = Some (Z.of_nat p) ∧ L !! p = Some c ∧
        count (eq_to c) (take p L)
        = count (eq_to c) (take j (last_to_first_string L)).
Proof.
  destruct (first_to_last_index_spec L) as (FL & HFL & Hlen & Hspec).
  exists FL. split; [exact HFL|]. split; [unfold len; rewrite Hlen; reflexivity|].
  exact Hspec.
Qed.

(** X8: on the transform of a text without sentinel, the LF list sends the
    row of a rotation to the row of that rotation turned once to the
    right (its last symbol moved in front). *)
Theorem last_to_first_index_rotates (text : str) :
  "$"%char ∉ text →
  ∃ L LF, bwt text = Ok L ∧ last_to_first_index L = Ok LF ∧
    ∀ r x, lexsort_list (cyclic_rotations text) !! r = Some x →
      ∃ c b q, x = b ++ [c] ∧ L !! r = Some c ∧ LF !! r = Some (Z.of_nat q) ∧
        lexsort_list (cyclic_rotations text) !! q = Some (c :: b).
Proof.
  intros Hs. exists (lastc <$> rows text), (lf_list (lastc <$> rows text)).
  split; [apply bwt_spec|]. split; [apply last_to_first_index_spec|].
  intros r x Hr. fold (rows text) in Hr |- *.
  assert (x ≠ []) as Hne by (eapply rows_nonempty, list_elem_of_lookup_2, Hr).
  pose proof (lf_rotr1 text r x Hs Hr) as Hlf.
  pose proof (last_column_lookup text r x Hr) as HL.
  destruct x as [|c b _] using rev_ind; [congruence|].
  rewrite lastc_snoc in HL, Hlf. rewrite rotr1_snoc in Hlf.
  exists c, b, (lf_at char_ltb (lastc <$> rows text) r c).
  split; [reflexivity|]. split; [exact HL|].
  split; [apply lf_list_lookup, HL | exact Hlf].
Qed.

Lemma last_to_first_index_rotates_witness :
  ∃ L LF, bwt (py "ACG") = Ok L ∧ last_to_first_index L = Ok LF ∧
    ∀ r x, lexsort_list (cyclic_rotations (py "ACG")) !! r = Some x →
      ∃ c b q, x = b ++ [c] ∧ L !! r = Some c ∧ LF !! r = Some (Z.of_nat q) ∧
        lexsort_list (cyclic_rotations (py "ACG")) !! q = Some (c :: b).
Proof.
  apply last_to_first_index_rotates.
  apply (bool_decide_unpack _). vm_compute. exact I.
Defined.

(** ** The transform loses nothing *)

Lemma invert_last_column (text : str) :
  "$"%char ∉ text → invert_bwt (lastc <$> rows text) = Ok text.
Proof.
  intros Hs. unfold invert_bwt.
  rewrite last_to_first_index_spec, bind_Ok.
  destruct (py_index_sentinel text Hs) as (r & -> & Hr). rewrite bind_Ok.
  destruct (invert_loop_spec text r _ (length (text ++ ["$"%char])) Hs Hr)
    as [j Hrun].
  assert (len (lastc <$> rows text) = Z.of_nat (length (text ++ ["$"%char]))) as ->.
  { unfold len. rewrite length_fmap, rows_length, length_app. simpl. lia. }
  rewrite Hrun, bind_Ok. cbv beta iota.
  pose proof (unwind_reverse (text ++ ["$"%char]) []) as Hu.
  rewrite app_nil_l in Hu. rewrite Hu, reverse_involutive.
  rewrite rstrip_sentinel by exact Hs. reflexivity.
Qed.

(** X9: two texts without sentinel that have the same transform are the
    same text. *)
Theorem bwt_injective (S1 S2 : str) :
  "$"%char ∉ S1 → "$"%char ∉ S2 → bwt S1 = bwt S2 → S1 = S2.
Proof.
  intros H1 H2 Heq. rewrite !bwt_spec in Heq. inversion Heq as [HL].
  pose proof (invert_last_column S1 H1) as E1.
  pose proof (invert_last_column S2 H2) as E2.
  rewrite HL in E1. congruence.
Qed.

Lemma bwt_injective_witness : py "ACG" = py "ACG".
Proof.
  apply bwt_injective.
  - apply (bool_decide_unpack _). vm_compute. exact I.
  - apply (bool_decide_unpack _). vm_compute. exact I.
  - reflexivity.
Defined.

(** The hypothesis matters: with sentinels in the text two texts can share
    a transform. *)
Example bwt_not_injective_with_sentinel :
  bwt (py "$A") = bwt (py "A$") ∧ py "$A" ≠ py "A$".
Proof. split; [vm_compute; reflexivity | discriminate]. Qed.

(** ** Backward search: bounds and monotonicity *)

Lemma count_le_impl {A : Type} (p q : A → bool) (l : list A) :
  (∀ x, p x = true → q x = true) → (count p l ≤ count q l)%nat.
Proof.
  intros H. induction l as [|x l IH]; simpl; [lia|].
  specialize (H x). destruct (p x), (q x); try lia;
    try (specialize (H eq_refl); discriminate).
Qed.

Lemma count_elem_pos {A : Type} (p : A → bool) (l : list A) (x : A) :
  x ∈ l → p x = true → (0 < count p l)%nat.
Proof.
  intros Hx Hp. induction l as [|y l IH]; [apply elem_of_nil in Hx; contradiction|].
  simpl. apply elem_of_cons in Hx as [->|Hx].
  - rewrite Hp. lia.
  - specialize (IH Hx). destruct (p y); lia.
Qed.

(** X10: on a text without sentinel [bwa_search] raises nothing, whatever
    the pattern, and returns a count between 0 and [len text + 1]. *)
Theorem bwa_search_bounds (text pattern : str) :
  "$"%char ∉ text →
  ∃ k, bwa_search text pattern = Ok k ∧ 0 ≤ k ≤ len text + 1.
Proof.
  intros Hs. eexists. split; [apply bwa_search_spec, Hs|].
  pose proof (count_le_length (cyc_match pattern) (rows text)) as H.
  rewrite rows_length in H. unfold len. lia.
Qed.

Lemma bwa_search_bounds_witness :
  ∃ k, bwa_search (py "TCGACGAT") (py "CGA") = Ok k ∧
       0 ≤ k ≤ len (py "TCGACGAT") + 1.
Proof.
  apply bwa_search_bounds.
  apply (bool_decide_unpack _). vm_compute. exact I.
Defined.

Lemma rows_rot_1_Permutation (text : str) :
  (λ y, rot y 1) <$> rows text ≡ₚ rows text.
Proof.
  rewrite <- (rows_rotr1 text) at 1. rewrite <- list_fmap_compose.
  rewrite (list_fmap_ext _ id (rows text)); [rewrite list_fmap_id; reflexivity|].
  intros i x _. simpl. apply rot_1_rotr1.
Qed.

Lemma rows_rot_iter_Permutation (text : str) (k : nat) :
  Nat.iter k (λ y, rot y 1) <$> rows text ≡ₚ rows text.
Proof.
  induction k as [|k IH].
  - simpl. rewrite list_fmap_id. reflexivity.
  - transitivity ((λ y, rot y 1) <$> (Nat.iter k (λ y, rot y 1) <$> rows text)).
    + rewrite <- list_fmap_compose. reflexivity.
    + rewrite IH. apply rows_rot_1_Permutation.
Qed.

(** X11: on a text without sentinel, a longer pattern is never found more
    often than a piece of it: the count for [P + Q] is at most the count
    for [P] and at most the count for [Q]. *)
Theorem bwa_search_antitone (text P Q : str) :
  "$"%char ∉ text →
  ∃ k kP kQ,
    bwa_search text (P ++ Q) = Ok k ∧
    bwa_search text P = Ok kP ∧ bwa_search text Q = Ok kQ ∧
    k ≤ kP ∧ k ≤ kQ.
Proof.
  intros Hs. do 3 eexists.
  split; [apply bwa_search_spec, Hs|].
  split; [apply bwa_search_spec, Hs|].
  split; [apply bwa_search_spec, Hs|].
  split; apply inj_le.
  - apply count_le_impl. intros x Hx. rewrite cyc_match_app in Hx.
    apply andb_true_iff in Hx as [Hx _]. exact Hx.
  - rewrite <- (count_Permutation (cyc_match Q) _ _
                  (rows_rot_iter_Permutation text (length P))).
    rewrite count_fmap. apply count_le_impl. intros x Hx.
    rewrite cyc_match_app in Hx. apply andb_true_iff in Hx as [_ Hx]. exact Hx.
Qed.

Lemma bwa_search_antitone_witness :
  ∃ k kP kQ,
    bwa_search (py "TCGACGAT") (py "CG" ++ py "A") = Ok k ∧
    bwa_search (py "TCGACGAT") (py "CG") = Ok kP ∧
    bwa_search (py "TCGACGAT") (py "A") = Ok kQ ∧
    k ≤ kP ∧ k ≤ kQ.
Proof.
  apply bwa_search_antitone.
  apply (bool_decide_unpack _). vm_compute. exact I.
Defined.

(** ** Backward search: occurrences *)

Lemma count_rows_naive_all (text P : str) :
  "$"%char ∉ P →
  Z.of_nat (count (cyc_match P) (rows text)) = naive_count text P.
Proof.
  intros Hs. destruct P as [|c P]; [|apply count_rows_naive; [exact Hs | discriminate]].
  rewrite naive_count_spec. f_equal.
  rewrite !count_true; try (apply Forall_forall; intros; reflexivity).
  rewrite rows_length, length_seq. unfold len. simpl. lia.
Qed.

Lemma bwa_search_occurs_iff (S P : str) :
  "$"%char ∉ S → P ≠ [] → "$"%char ∉ P →
  ∃ k, bwa_search S P = Ok k ∧
    (0 < k ↔ ∃ i : nat, take (length P) (drop i S) = P).
Proof.
  intros HS HP HsP. eexists. split; [apply bwa_search_spec, HS|].
  rewrite count_rows_naive by assumption. rewrite naive_count_spec.
  set (p := λ i : nat, bool_decide (take (length P) (drop i S) = P)).
  set (m := Z.to_nat (len S - len P + 1)).
  split.
  - intros Hpos. destruct (count_pos_elem p (seq 0 m)) as (i & _ & Hi); [lia|].
    exists i. apply bool_decide_eq_true in Hi. exact Hi.
  - intros [i Hi].
    assert (0 < count p (seq 0 m))%nat; [|lia].
    apply (count_elem_pos p _ i).
    + apply elem_of_seq. pose proof (f_equal length Hi) as Hl.
      rewrite length_take, length_drop in Hl.
      assert (length P ≠ 0)%nat by (destruct P; [congruence | simpl; lia]).
      unfold m, len. lia.
    + apply bool_decide_eq_true. exact Hi.
Qed.

(** X12: on a text and a non-empty pattern without sentinel, the count of
    [bwa_search] is positive exactly when the pattern occurs in the text at
    some offset. *)
Theorem bwa_search_positive_iff_occurs (S P : str) :
  "$"%char ∉ S → P ≠ [] → "$"%char ∉ P →
  ∃ k, bwa_search S P = Ok k ∧
    (0 < k ↔ ∃ i : nat, take (length P) (drop i S) = P).
Proof. apply bwa_search_occurs_iff. Qed.

Lemma bwa_search_positive_iff_occurs_witness :
  ∃ k, bwa_search (py "GATTACA") (py "TTA") = Ok k ∧
    (0 < k ↔ ∃ i : nat, take (length (py "TTA")) (drop i (py "GATTACA")) = py "TTA").
Proof.
  apply bwa_search_positive_iff_occurs.
  - apply (bool_decide_unpack _). vm_compute. exact I.
  - discriminate.
  - apply (bool_decide_unpack _). vm_compute. exact I.
Defined.

(** X13: a pattern without sentinel that is longer than the text, itself
    without sentinel, is searched without error and counted 0 times. *)
Theorem bwa_search_long_pattern (S P : str) :
  "$"%char ∉ S → "$"%char ∉ P → len S < len P → bwa_search S P = Ok 0.
Proof.
  intros HS HsP Hlen. rewrite bwa_search_spec by exact HS.
  rewrite count_rows_naive_all by exact HsP. rewrite naive_count_spec.
  replace (Z.to_nat (len S - len P + 1)) with 0%nat by lia. reflexivity.
Qed.

Lemma bwa_search_long_pattern_witness :
  bwa_search (py "AC") (py "ACA") = Ok 0.
Proof.
  apply bwa_search_long_pattern.
  - apply (bool_decide_unpack _). vm_compute. exact I.
  - apply (bool_decide_unpack _). vm_compute. exact I.
  - vm_compute. reflexivity.
Defined.

(** ** [bw_matching] on its own *)

Lemma bw_while_in_range (lastcol : str) (lf : list Z) :
  length lf = length lastcol →
  Forall (λ z, 0 ≤ z < len lastcol) lf →
  ∀ (fuel : nat) (pattern : str) (top bottom : Z),
    (length pattern < fuel)%nat → 0 ≤ top → bottom < len lastcol →
    ∃ k, bw_while fuel lastcol lf top bottom pattern = Ok k ∧
         0 ≤ k ≤ len lastcol.
Proof.
  intros Hlen Hlf. induction fuel as [|fuel IH]; intros pattern top bottom Hf Ht Hb;
    [lia|].
  pose proof (len_nonneg lastcol) as Hn.
  rewrite bw_while_S.
  destruct (decide (top ≤ bottom)) as [Htb|]; [|exists 0; split; [reflexivity | lia]].
  destruct (decide (pattern ≠ [])) as [Hne|];
    [|eexists; split; [reflexivity | lia]].
  destruct pattern as [|c P _] using rev_ind; [congruence|].
  rewrite length_app in Hf. simpl in Hf.
  rewrite py_getitem_last, bind_Ok. cbv zeta.
  assert (take (Z.to_nat (len (P ++ [c]) - 1)) (P ++ [c]) = P) as ->.
  { apply take_app_length'. unfold len. rewrite length_app. simpl. lia. }
  rewrite <- (Z2Nat.id top), <- (Z2Nat.id bottom) by lia.
  rewrite current_positions_spec by (unfold len in Hb; lia). rewrite bind_Ok.
  set (t := Z.to_nat top). set (b := Z.to_nat bottom).
  destruct (decide (Z.of_nat <$> range_positions lastcol c t b = [])) as [|Hnil];
    [exists 0; split; [reflexivity | lia]|].
  assert (range_positions lastcol c t b ≠ []) as Hnil'
    by (intros H; apply Hnil; rewrite H; reflexivity).
  destruct (range_positions_ends lastcol c t b Hnil')
    as (p0 & p1 & Hg0 & Hg1 & Hp0 & Hp1 & _).
  apply range_positions_elem in Hp0 as [Hr0 _].
  apply range_positions_elem in Hp1 as [Hr1 _].
  assert (b < length lf)%nat as Hbl by (unfold b, len in *; lia).
  destruct (lookup_lt_is_Some_2 lf p0 ltac:(lia)) as [top' Htop'].
  destruct (lookup_lt_is_Some_2 lf p1 ltac:(lia)) as [bottom' Hbottom'].
  rewrite Hg0, bind_Ok, (py_getitem_nat _ _ _ Htop'), bind_Ok.
  rewrite Hg1, bind_Ok, (py_getitem_nat _ _ _ Hbottom'), bind_Ok.
  pose proof (Forall_lookup_1 _ _ _ _ Hlf Htop') as Ht'.
  pose proof (Forall_lookup_1 _ _ _ _ Hlf Hbottom') as Hb'.
  simpl in Ht', Hb'. apply IH; lia.
Qed.

(** X14: when the LF list has the length of the last column and all its
    entries are positions of that column, [bw_matching] raises nothing and
    returns a count between 0 and the length of the column, whatever the
    columns and the pattern hold. *)
Theorem bw_matching_in_range (firstcol lastcol pattern : str) (lf : list Z) :
  len lf = len lastcol →
  Forall (λ z, 0 ≤ z < len lastcol) lf →
  ∃ k, bw_matching firstcol lastcol pattern lf = Ok k ∧ 0 ≤ k ≤ len lastcol.
Proof.
  intros Hlen Hlf. unfold bw_matching.
  apply bw_while_in_range; try assumption; unfold len in *; lia.
Qed.

Lemma bw_matching_in_range_witness :
  ∃ k, bw_matching [] (py "AB") (py "A") [1; 1] = Ok k ∧ 0 ≤ k ≤ len (py "AB").
Proof.
  apply bw_matching_in_range.
  - reflexivity.
  - repeat (constructor; [unfold len; simpl; lia|]). constructor.
Defined.

(** ** The benchmark *)

(** X15: on a text and a pattern without sentinel, the empty pattern
    included, [benchmark_search_methods] raises nothing and its two counts
    are equal, whatever the clock reads. *)
Theorem benchmark_counts_agree {float : Type} (fsub : float → float → float)
    (time_time : nat → float) (text pattern : str) :
  "$"%char ∉ text → "$"%char ∉ pattern →
  ∃ bwt_time naive_time k,
    benchmark_search_methods fsub time_time text pattern
    = Ok (bwt_time, naive_time, k, k) ∧
    k = naive_count text pattern ∧ 0 ≤ k.
Proof.
  intros Ht Hp. unfold benchmark_search_methods.
  rewrite bwa_search_spec by exact Ht. rewrite bind_Ok. cbv zeta.
  rewrite count_rows_naive_all by exact Hp.
  do 3 eexists. split; [reflexivity|]. split; [reflexivity|].
  rewrite naive_count_spec. lia.
Qed.

Lemma benchmark_counts_agree_witness :
  ∃ bwt_time naive_time k,
    benchmark_search_methods Z.sub Z.of_nat (py "ATCGATCG") (py "ATCG")
    = Ok (bwt_time, naive_time, k, k) ∧
    k = naive_count (py "ATCGATCG") (py "ATCG") ∧ 0 ≤ k.
Proof.
  apply benchmark_counts_agree.
  - apply (bool_decide_unpack _). vm_compute. exact I.
  - apply (bool_decide_unpack _). vm_compute. exact I.
Defined.

(** ** Runs *)

Lemma runs_spec_snoc (l : str) (b a : ascii) :
  runs_spec (l ++ [b; a])
  = (runs_spec (l ++ [b]) + (if decide (b = a) then 0 else 1))%nat.
Proof.
  induction l as [|c l IH].
  - simpl. destruct (decide (b = a)); reflexivity.
  - destruct l as [|d l].
    + simpl in *. destruct (decide (c = b)), (decide (b = a)); reflexivity.
    + change (runs_spec ((c :: d :: l) ++ [b; a]))
        with ((if decide (c = d) then 0 else 1) + runs_spec ((d :: l) ++ [b; a]))%nat.
      change (runs_spec ((c :: d :: l) ++ [b]))
        with ((if decide (c = d) then 0 else 1) + runs_spec ((d :: l) ++ [b]))%nat.
      rewrite IH. lia.
Qed.

Lemma count_runs_spec (s : str) : count_runs s = Ok (Z.of_nat (runs_spec s)).
Proof.
  unfold count_runs. destruct (decide (s = [])) as [->|Hne]; [reflexivity|].
  pose (Inv := λ (k : nat) (runs : Z), runs = Z.of_nat (runs_spec (take (S k) s))).
  match goal with |- for_each ?l ?body ?s0 = _ =>
    destruct (for_each_inv l body Inv s0) as (runs & Hrun & Hinv) end.
  - unfold Inv. destruct s as [|a s]; [congruence|]. reflexivity.
  - unfold Inv. intros k i runs Hi ->. apply py_range_lookup in Hi as [-> Hk].
    assert (S k < length s)%nat as Hlt by (unfold len in Hk; lia).
    destruct (lookup_lt_is_Some_2 s (S k) Hlt) as [a Ha].
    destruct (lookup_lt_is_Some_2 s k ltac:(lia)) as [b Hb].
    replace (1 + Z.of_nat k) with (Z.of_nat (S k)) by lia.
    rewrite (py_getitem_nat _ _ _ Ha), bind_Ok.
    replace (Z.of_nat (S k) - 1) with (Z.of_nat k) by lia.
    rewrite (py_getitem_nat _ _ _ Hb), bind_Ok.
    eexists. split; [reflexivity|].
    rewrite (take_S_r _ _ _ Ha), (take_S_r _ _ _ Hb), <- app_assoc.
    simpl app. rewrite runs_spec_snoc.
    destruct (decide (b = a)) as [->|Hba];
      [rewrite decide_False by (intros H; apply H; reflexivity)
      |rewrite decide_True by congruence]; lia.
  - rewrite Hrun, Hinv. rewrite py_range_length. do 3 f_equal.
    assert (0 < length s)%nat by (destruct s; [congruence | simpl; lia]).
    replace (S (Z.to_nat (len s - 1))) with (length s) by (unfold len; lia).
    apply firstn_all.
Qed.

Lemma runs_spec_bounds (s : str) :
  (runs_spec s ≤ length s)%nat ∧ (s ≠ [] → 1 ≤ runs_spec s)%nat.
Proof.
  induction s as [|a s [IH1 IH2]]; [split; [simpl; lia | congruence]|].
  destruct s as [|b s]; [simpl; split; lia|].
  change (runs_spec (a :: b :: s))
    with ((if decide (a = b) then 0 else 1) + runs_spec (b :: s))%nat.
  specialize (IH2 ltac:(discriminate)). simpl length in *.
  destruct (decide (a = b)); split; lia.
Qed.

Lemma runs_spec_one (s : str) :
  runs_spec s = 1%nat ↔ s ≠ [] ∧ ∀ a b, a ∈ s → b ∈ s → a = b.
Proof.
  induction s as [|a s IH].
  - simpl. split; [lia | intros [H _]; congruence].
  - destruct s as [|b s].
    + simpl. split; [|reflexivity]. intros _. split; [discriminate|].
      intros x y Hx Hy. apply list_elem_of_singleton in Hx, Hy. congruence.
    + change (runs_spec (a :: b :: s))
        with ((if decide (a = b) then 0 else 1) + runs_spec (b :: s))%nat.
      pose proof (runs_spec_bounds (b :: s)) as [_ H1].
      specialize (H1 ltac:(discriminate)).
      split.
      * intros H. destruct (decide (a = b)) as [->|]; [|lia].
        destruct (proj1 IH ltac:(lia)) as [_ Hu].
        split; [discriminate|]. intros x y Hx Hy.
        apply elem_of_cons in Hx as [->|Hx]; apply elem_of_cons in Hy as [->|Hy].
        -- reflexivity.
        -- apply Hu; [left | exact Hy].
        -- apply Hu; [exact Hx | left].
        -- apply Hu; assumption.
      * intros [_ Hu].
        assert (a = b) as -> by (apply Hu; [left | right; left]).
        rewrite decide_True by reflexivity. simpl plus. apply IH.
        split; [discriminate|]. intros x y Hx Hy. apply Hu; right; assumption.
Qed.

(** X16: [count_runs] raises nothing.  It returns 0 for the empty string
    and otherwise a number between 1 and the length of the string, which
    is 1 exactly when all the symbols of the string are equal. *)
Theorem count_runs_bounds (s : str) :
  ∃ n, count_runs s = Ok n ∧
    (s = [] → n = 0) ∧
    (s ≠ [] → 1 ≤ n ≤ len s) ∧
    (n = 1 ↔ s ≠ [] ∧ ∀ a b, a ∈ s → b ∈ s → a = b).
Proof.
  exists (Z.of_nat (runs_spec s)). split; [apply count_runs_spec|].
  pose proof (runs_spec_bounds s) as [H1 H2].
  split; [intros ->; reflexivity|]. split.
  - intros Hne. specialize (H2 Hne). unfold len. lia.
  - rewrite <- runs_spec_one. lia.
Qed.

(** X17: splitting a string splits its runs: the runs of [s + t] are the
    runs of [s] plus the runs of [t], less one when the last symbol of [s]
    is the first symbol of [t]. *)
Theorem count_runs_app (s t : str) :
  ∃ n ns nt, count_runs (s ++ t) = Ok n ∧
    count_runs s = Ok ns ∧ count_runs t = Ok nt ∧
    n = ns + nt - (if decide (s ≠ [] ∧ last s = head t) then 1 else 0).
Proof.
  exists (Z.of_nat (runs_spec (s ++ t))), (Z.of_nat (runs_spec s)),
    (Z.of_nat (runs_spec t)).
  rewrite !count_runs_spec. repeat split.
  induction s as [|a s IH].
  - rewrite decide_False by (intros [H _]; congruence). simpl. lia.
  - destruct s as [|b s].
    + destruct t as [|c t].
      * rewrite decide_False by (intros [_ H]; discriminate). simpl. lia.
      * change (runs_spec ([a] ++ c :: t))
          with ((if decide (a = c) then 0 else 1) + runs_spec (c :: t))%nat.
        simpl last. simpl head. simpl (runs_spec [a]).
        pose proof (runs_spec_bounds (c :: t)) as [_ H1].
        specialize (H1 ltac:(discriminate)).
        destruct (decide (a = c)) as [->|Hne].
        -- rewrite decide_True by (split; [discriminate | reflexivity]). lia.
        -- rewrite decide_False
             by (intros [_ H]; simpl in H; inversion H; contradiction).
           lia.
    + change (runs_spec ((a :: b :: s) ++ t))
        with ((if decide (a = b) then 0 else 1) + runs_spec ((b :: s) ++ t))%nat.
      change (runs_spec (a :: b :: s))
        with ((if decide (a = b) then 0 else 1) + runs_spec (b :: s))%nat.
      change (last (a :: b :: s)) with (last (b :: s)).
      pose proof (runs_spec_bounds (b :: s)) as [_ H1].
      specialize (H1 ltac:(discriminate)).
      destruct (decide (b :: s ≠ [] ∧ last (b :: s) = head t)) as [Hd|Hd].
      * destruct (decide (a :: b :: s ≠ [] ∧ last (b :: s) = head t)) as [_|Hn];
          [lia|]. exfalso. apply Hn. split; [discriminate | exact (proj2 Hd)].
      * destruct (decide (a :: b :: s ≠ [] ∧ last (b :: s) = head t)) as [[_ H]|_];
          [|lia]. exfalso. apply Hd. split; [discriminate | exact H].
Qed.

(** ** The fields of the compression statistics *)

(** X18: the dictionary of [analyze_compression] holds
    [original_length == len(text)] and [bwt_length == len(text) + 1]; the
    transform has between 1 and [len(text) + 1] runs; for a non-empty text
    [original_runs] is at least 1 and [run_reduction_ratio] is the
    floating-point quotient [bwt_runs / original_runs], not the integer 0;
    [entropy_reduction] is the difference of the two entropies. *)
Theorem analyze_compression_fields {float : Type}
    (fdiv : Z → Z → float) (flog2 : float → float)
    (fmul fsub : float → float → float) (float_of_int : Z → float)
    (fpos : float → bool) (text : str) :
  ∃ st,
    analyze_compression fdiv flog2 fmul fsub float_of_int fpos text = Ok st ∧
    original_length st = len text ∧
    bwt_length st = len text + 1 ∧
    1 ≤ bwt_runs st ≤ len text + 1 ∧
    (text ≠ [] →
       1 ≤ original_runs st ≤ len text ∧
       run_reduction_ratio st = PyFloat (fdiv (bwt_runs st) (original_runs st))) ∧
    entropy_reduction st
    = py_sub fsub float_of_int (original_entropy st) (bwt_entropy st).
Proof.
  unfold analyze_compression. rewrite bwt_spec, !bind_Ok.
  rewrite !count_runs_spec, !bind_Ok.
  destruct (calculate_entropy_total fdiv flog2 fmul fsub float_of_int fpos text)
    as [e1 ->]. rewrite bind_Ok.
  destruct (calculate_entropy_total fdiv flog2 fmul fsub float_of_int fpos
              (lastc <$> rows text)) as [e2 ->]. rewrite bind_Ok.
  pose proof (runs_spec_bounds text) as [Ht1 Ht2].
  pose proof (runs_spec_bounds (lastc <$> rows text)) as [HL1 HL2].
  rewrite length_fmap, rows_length in HL1.
  assert (lastc <$> rows text ≠ []) as HLne.
  { intros H. apply (f_equal length) in H.
    rewrite length_fmap, rows_length in H. discriminate. }
  specialize (HL2 HLne).
  assert (HLlen : len (lastc <$> rows text) = len text + 1)
    by (unfold len; rewrite length_fmap, rows_length; lia).
  destruct (decide (Z.of_nat (runs_spec text) > 0)) as [Hpos|Hneg].
  - unfold py_truediv. rewrite decide_False by lia. rewrite !bind_Ok.
    eexists. split; [reflexivity|]. cbn.
    split; [reflexivity|]. split; [exact HLlen|].
    split; [unfold len; lia|]. split; [|reflexivity].
    intros _. split; [unfold len; lia | reflexivity].
  - rewrite bind_Ok. eexists. split; [reflexivity|]. cbn.
    split; [reflexivity|]. split; [exact HLlen|].
    split; [unfold len; lia|]. split; [|reflexivity].
    intros Hne. specialize (Ht2 Hne). lia.
Qed.

(** ** [generate_repetitive_dna] *)

Lemma concat_replicate_length (q : nat) (u : str) :
  length (concat (replicate q u)) = (q * length u)%nat.
Proof. induction q as [|q IH]; simpl; [reflexivity | rewrite length_app, IH; lia]. Qed.

Lemma concat_replicate_lookup (q : nat) (u : str) (i : nat) :
  (i < q * length u)%nat →
  concat (replicate q u) !! i = u !! (i mod length u)%nat.
Proof.
  revert i. induction q as [|q IH]; intros i Hi; [simpl in Hi; lia|].
  simpl. destruct (decide (i < length u)%nat) as [Hlt|Hge].
  - rewrite lookup_app_l by exact Hlt. rewrite Nat.mod_small by exact Hlt. reflexivity.
  - rewrite lookup_app_r by lia. rewrite IH by (simpl in Hi; lia).
    f_equal. replace i with ((i - length u) + 1 * length u)%nat at 2 by lia.
    rewrite Nat.Div0.mod_add. reflexivity.
Qed.

Lemma generate_repetitive_dna_nonneg (length_ : Z) (repeat_unit : str) :
  repeat_unit ≠ [] → 0 ≤ length_ →
  generate_repetitive_dna length_ repeat_unit
  = Ok (concat (replicate (Z.to_nat (length_ / len repeat_unit)) repeat_unit)
        ++ take (Z.to_nat (length_ mod len repeat_unit)) repeat_unit).
Proof.
  intros Hne Hl. unfold generate_repetitive_dna, py_floordiv, py_mod.
  assert (0 < len repeat_unit) as Hm
    by (destruct repeat_unit; [congruence | unfold len; simpl; lia]).
  rewrite !decide_False by lia. rewrite !bind_Ok. cbv zeta.
  pose proof (Z.mod_pos_bound length_ (len repeat_unit) Hm) as Hr.
  unfold py_str_mul, py_slice_to.
  destruct (decide (length_ mod len repeat_unit > 0)) as [Hpos|Hz].
  - rewrite decide_False by lia. reflexivity.
  - replace (length_ mod len repeat_unit) with 0 by lia.
    simpl. rewrite app_nil_r. reflexivity.
Qed.

(** X19: for a non-empty repeat unit and a length that is not negative,
    [generate_repetitive_dna] returns a string of exactly that length
    whose symbol at [i] is the symbol of the unit at [i % len(unit)]. *)
Theorem generate_repetitive_dna_periodic (length_ : Z) (repeat_unit : str) :
  repeat_unit ≠ [] → 0 ≤ length_ →
  ∃ s, generate_repetitive_dna length_ repeat_unit = Ok s ∧
    len s = length_ ∧
    ∀ i, 0 ≤ i < length_ →
      s !! Z.to_nat i = repeat_unit !! Z.to_nat (i mod len repeat_unit).
Proof.
  intros Hne Hl. eexists. split; [apply generate_repetitive_dna_nonneg; assumption|].
  assert (0 < len repeat_unit) as Hm
    by (destruct repeat_unit; [congruence | unfold len; simpl; lia]).
  pose proof (Z.mod_pos_bound length_ (len repeat_unit) Hm) as Hr.
  pose proof (Z.div_mod length_ (len repeat_unit) ltac:(lia)) as Hdm.
  assert (0 ≤ length_ / len repeat_unit) as Hq by (apply Z.div_pos; lia).
  set (q := Z.to_nat (length_ / len repeat_unit)) in *.
  set (r := Z.to_nat (length_ mod len repeat_unit)) in *.
  assert (Hlen : Z.to_nat length_ = (q * length repeat_unit + r)%nat).
  { unfold q, r, len in *. nia. }
  assert (Hrl : (r < length repeat_unit)%nat) by (unfold r, len in *; lia).
  split.
  - unfold len. rewrite length_app, concat_replicate_length, length_take. lia.
  - intros i Hi.
    assert (Z.to_nat (i mod len repeat_unit)
            = (Z.to_nat i mod length repeat_unit)%nat) as ->.
    { unfold len. rewrite <- (Z2Nat.id i) at 1 by lia.
      rewrite <- Nat2Z.inj_mod. apply Nat2Z.id. }
    set (n := Z.to_nat i). assert (n < q * length repeat_unit + r)%nat by lia.
    destruct (decide (n < q * length repeat_unit)%nat) as [Hlt|Hge].
    + rewrite lookup_app_l by (rewrite concat_replicate_length; exact Hlt).
      apply concat_replicate_lookup, Hlt.
    + rewrite lookup_app_r by (rewrite concat_replicate_length; lia).
      rewrite concat_replicate_length, lookup_take_lt by lia.
      f_equal. replace n with ((n - q * length repeat_unit) + q * length repeat_unit)%nat
        at 2 by lia.
      rewrite Nat.Div0.mod_add. symmetry. apply Nat.mod_small. lia.
Qed.

Lemma generate_repetitive_dna_periodic_witness :
  ∃ s, generate_repetitive_dna 10 (py "ATCG") = Ok s ∧
    len s = 10 ∧
    ∀ i, 0 ≤ i < 10 →
      s !! Z.to_nat i = py "ATCG" !! Z.to_nat (i mod len (py "ATCG")).
Proof.
  apply generate_repetitive_dna_periodic.
  - discriminate.
  - lia.
Defined.

(** X20: with an empty repeat unit [generate_repetitive_dna] raises
    [ZeroDivisionError], whatever the length. *)
Theorem generate_repetitive_dna_empty_unit (length_ : Z) :
  generate_repetitive_dna length_ [] = Raise ZeroDivisionError.
Proof. reflexivity. Qed.

(** X21: for a negative length [generate_repetitive_dna] does not raise
    and does not return the empty string in general: it returns the first
    [length % len(unit)] symbols of the unit. *)
Theorem generate_repetitive_dna_negative (length_ : Z) (repeat_unit : str) :
  repeat_unit ≠ [] → length_ < 0 →
  generate_repetitive_dna length_ repeat_unit
  = Ok (take (Z.to_nat (length_ mod len repeat_unit)) repeat_unit).
Proof.
  intros Hne Hl. unfold generate_repetitive_dna, py_floordiv, py_mod.
  assert (0 < len repeat_unit) as Hm
    by (destruct repeat_unit; [congruence | unfold len; simpl; lia]).
  rewrite !decide_False by lia. rewrite !bind_Ok. cbv zeta.
  pose proof (Z.mod_pos_bound length_ (len repeat_unit) Hm) as Hr.
  assert (length_ / len repeat_unit < 0) as Hq by (apply Z.div_lt_upper_bound; lia).
  unfold py_str_mul, py_slice_to.
  replace (Z.to_nat (length_ / len repeat_unit)) with 0%nat by lia. simpl.
  destruct (decide (length_ mod len repeat_unit > 0)) as [Hpos|Hz].
  - rewrite decide_False by lia. reflexivity.
  - replace (length_ mod len repeat_unit) with 0 by lia. reflexivity.
Qed.

Lemma generate_repetitive_dna_negative_witness :
  generate_repetitive_dna (-1) (py "ATCG")
  = Ok (take (Z.to_nat (-1 mod len (py "ATCG"))) (py "ATCG")).
Proof.
  apply generate_repetitive_dna_negative.
  - discriminate.
  - lia.
Defined.

Example generate_repetitive_dna_minus_one :
  generate_repetitive_dna (-1) (py "ATCG") = Ok (py "ATC").
Proof. reflexivity. Qed.

(** ** [analyze_genomic_sequence] *)

Lemma str_count_nonneg (s : str) (c : ascii) : 0 ≤ str_count s c.
Proof. unfold str_count. apply len_nonneg. Qed.

Lemma str_count_zero (s : str) (c : ascii) : str_count s c = 0 ↔ c ∉ s.
Proof.
  unfold str_count, len. induction s as [|a s IH].
  - simpl. split; [intros _ H; apply elem_of_nil in H; exact H | reflexivity].
  - rewrite filter_cons. destruct (decide (a = c)) as [->|Hne].
    + simpl. split; [lia|]. intros H. exfalso. apply H. left.
    + rewrite IH. split.
      * intros H Hc. apply elem_of_cons in Hc as [->|Hc]; [congruence | exact (H Hc)].
      * intros H Hc. apply H. right. exact Hc.
Qed.

(** X22: [analyze_genomic_sequence] raises [ZeroDivisionError] when the
    sequence holds none of the bases A, T, C, G (the empty sequence
    included): the GC content is divided by the number of bases without a
    test, unlike the percentages.  When the sequence holds one of the
    four bases it returns what [analyze_compression] returns. *)
Theorem analyze_genomic_sequence_bases {float : Type}
    (fdiv : Z → Z → float) (flog2 : float → float)
    (fmul fsub : float → float → float) (float_of_int : Z → float)
    (fpos : float → bool) (sequence : str) :
  ((∀ c, c ∈ py "ATCG" → c ∉ sequence) →
   analyze_genomic_sequence fdiv flog2 fmul fsub float_of_int fpos sequence
   = Raise ZeroDivisionError) ∧
  ((∃ c, c ∈ py "ATCG" ∧ c ∈ sequence) →
   analyze_genomic_sequence fdiv flog2 fmul fsub float_of_int fpos sequence
   = analyze_compression fdiv flog2 fmul fsub float_of_int fpos sequence).
Proof.
  pose proof (str_count_nonneg sequence "A"%char) as HA.
  pose proof (str_count_nonneg sequence "T"%char) as HT.
  pose proof (str_count_nonneg sequence "C"%char) as HC.
  pose proof (str_count_nonneg sequence "G"%char) as HG.
  unfold analyze_genomic_sequence. cbn [py list_ascii_of_string fmap list_fmap].
  cbn [alist_getitem fst snd]. unfold py_sum. cbn [foldl for_each].
  set (a := str_count sequence "A"%char) in *.
  set (t := str_count sequence "T"%char) in *.
  set (c := str_count sequence "C"%char) in *.
  set (g := str_count sequence "G"%char) in *.
  split.
  - intros Hnone.
    assert (a = 0 ∧ t = 0 ∧ c = 0 ∧ g = 0) as (Ea & Et & Ec & Eg).
    { repeat split; apply str_count_zero, Hnone; apply (bool_decide_unpack _);
        vm_compute; exact I. }
    rewrite Ea, Et, Ec, Eg. reflexivity.
  - intros (x & Hx & Hxs).
    assert (0 + a + t + c + g > 0) as Hpos.
    { assert (str_count sequence x ≠ 0) as Hne
        by (intros H; apply str_count_zero in H; exact (H Hxs)).
      pose proof (str_count_nonneg sequence x).
      unfold a, t, c, g in *. cbn [py list_ascii_of_string] in Hx.
      repeat (apply elem_of_cons in Hx as [->|Hx]; [lia|]).
      apply elem_of_nil in Hx. contradiction. }
    destruct (decide (0 + a + t + c + g > 0)) as [_|Hn]; [|contradiction].
    unfold py_truediv.
    destruct (decide (0 + a + t + c + g = 0)) as [Hz|_]; [lia|].
    reflexivity.
Qed.

(** In particular the empty sequence cannot be analysed. *)
Example analyze_genomic_sequence_empty :
  analyze_genomic_sequence Z.div (λ z, z) Z.mul Z.sub (λ z, z) (Z.ltb 0) []
  = Raise ZeroDivisionError.
Proof. reflexivity. Qed.

(** ** [simulate_genomic_reads] *)

Lemma py_slice_length_le (s : str) (a b : Z) :
  (length (py_slice s a b) ≤ length s)%nat.
Proof. unfold py_slice. rewrite length_take, length_drop. lia. Qed.

Lemma py_slice_elem (s : str) (a b : Z) (c : ascii) :
  c ∈ py_slice s a b → c ∈ s.
Proof.
  unfold py_slice. intros H. apply elem_of_take in H as (i & Hi & _).
  eapply elem_of_drop_1, list_elem_of_lookup_2, Hi.
Qed.

Lemma py_slice_occurs (s : str) (a b : Z) :
  ∃ i : nat, take (length (py_slice s a b)) (drop i s) = py_slice s a b.
Proof.
  unfold py_slice.
  match goal with |- context [take ?k (drop ?i s)] =>
    exists i; generalize (drop i s) as l; generalize k as n end.
  intros n l. rewrite length_take.
  destruct (decide (n ≤ length l)%nat) as [Hle|Hgt].
  - replace (n `min` length l)%nat with n by lia. reflexivity.
  - replace (n `min` length l)%nat with (length l) by lia.
    rewrite firstn_all, take_ge by lia. reflexivity.
Qed.

Lemma py_slice_full (s : str) (a k : Z) :
  0 ≤ a → 0 ≤ k → a + k ≤ len s → len (py_slice s a (a + k)) = k.
Proof.
  intros Ha Hk Hak. unfold py_slice, len in *.
  rewrite !decide_False by lia. rewrite length_take, length_drop. lia.
Qed.

Lemma list_remove_base (c : ascii) :
  c ∈ py "ATCG" →
  ∃ l, list_remove (py "ATCG") c = Ok l ∧ l ≠ [] ∧ ∀ b, b ∈ l → b ∈ py "ATCG".
Proof.
  intros Hc. cbn [py list_ascii_of_string] in *.
  repeat (apply elem_of_cons in Hc as [->|Hc];
          [eexists; split; [reflexivity|]; split; [discriminate|];
           intros b Hb;
           repeat (apply elem_of_cons in Hb as [->|Hb];
                   [apply (bool_decide_unpack _); vm_compute; exact I|]);
           apply elem_of_nil in Hb; contradiction|]).
  apply elem_of_nil in Hc. contradiction.
Qed.

Lemma list_remove_absent (l : str) (c : ascii) :
  c ∉ l → list_remove l c = Raise ValueError.
Proof.
  induction l as [|a l IH]; intros Hc; [reflexivity|]. simpl.
  rewrite decide_False by (intros ->; apply Hc; left).
  rewrite IH by (intros H; apply Hc; right; exact H). reflexivity.
Qed.

Section random_facts.
Context {rng float : Type}.
Variables (randint : rng → Z → Z → Z * rng) (random : rng → float * rng)
  (choice : rng → str → ascii * rng) (flt : float → float → bool).

(** When no draw is below the error rate the read is left as it is. *)
Lemma introduce_errors_none (error_rate : float) (read : str) (g : rng) :
  (∀ g, flt (random g).1 error_rate = false) →
  ∃ g', introduce_errors random choice flt error_rate read g = Ok (read, g').
Proof.
  intros Hno. unfold introduce_errors.
  match goal with |- ∃ g', for_each ?l ?body ?s0 = _ =>
    destruct (for_each_inv l body (λ _ st, st.1 = read) s0)
      as ([rl g'] & Hrun & Hinv) end.
  - reflexivity.
  - intros k i [rl g1] _ Hrl. cbn [fst] in Hrl. subst rl.
    pose proof (Hno g1) as Hg. destruct (random g1) as [x g2]. cbn [fst] in Hg.
    rewrite Hg. eexists. split; reflexivity.
  - cbn [fst] in Hinv. subst rl. exists g'. exact Hrun.
Qed.

(** On a read made of bases, errors keep the length and give bases. *)
Lemma introduce_errors_bases (error_rate : float) (read : str) (g : rng) :
  (∀ g l, l ≠ [] → (choice g l).1 ∈ l) →
  Forall (λ c, c ∈ py "ATCG") read →
  ∃ rl g', introduce_errors random choice flt error_rate read g = Ok (rl, g') ∧
    length rl = length read ∧ Forall (λ c, c ∈ py "ATCG") rl.
Proof.
  intros Hch Hread. unfold introduce_errors.
  match goal with |- ∃ rl g', for_each ?l ?body ?s0 = _ ∧ _ =>
    destruct (for_each_inv l body
                (λ _ st, length st.1 = length read ∧ Forall (λ c, c ∈ py "ATCG") st.1) s0)
      as ([rl g'] & Hrun & Hlen & Hall) end.
  - split; [reflexivity | exact Hread].
  - intros k i [rl g1] Hi [Hlen Hall]. cbn [fst] in Hlen, Hall.
    apply py_range_lookup in Hi as [-> Hk].
    destruct (random g1) as [x g2]. destruct (flt x error_rate).
    + assert (k < length rl)%nat as Hlt by (unfold len in Hk; lia).
      destruct (lookup_lt_is_Some_2 rl k Hlt) as [c Hc].
      replace (0 + Z.of_nat k) with (Z.of_nat k) by lia.
      rewrite (py_getitem_nat _ _ _ Hc), bind_Ok.
      destruct (list_remove_base c (Forall_lookup_1 _ _ _ _ Hall Hc))
        as (bases & -> & Hne & Hsub).
      rewrite bind_Ok. unfold py_choice. rewrite decide_False by exact Hne.
      rewrite bind_Ok. pose proof (Hch g2 bases Hne) as Hb.
      destruct (choice g2 bases) as [b g3]. cbn [fst] in Hb.
      rewrite py_setitem_nat by exact Hlt. rewrite bind_Ok.
      eexists. split; [reflexivity|]. cbn [fst]. split.
      * rewrite length_insert. exact Hlen.
      * apply Forall_insert; [exact Hall | apply Hsub, Hb].
    + eexists. split; [reflexivity|]. split; assumption.
  - exists rl, g'. split; [exact Hrun|]. split; assumption.
Qed.

End random_facts.

Section simulated_reads.
Context {rng float : Type}.
Variables (randint : rng → Z → Z → Z * rng) (random : rng → float * rng)
  (choice : rng → str → ascii * rng) (flt : float → float → bool).

(** X23: on a reference made of the bases A, T, C, G, with a [choice] that
    picks within the sequence it is given, [simulate_genomic_reads] raises
    nothing; it returns at most [num_reads] reads, each of exactly
    [read_length] symbols, all of them bases. *)
Theorem simulate_genomic_reads_bases (reference : str) (num_reads read_length : Z)
    (error_rate : float) (g : rng) :
  (∀ g l, l ≠ [] → (choice g l).1 ∈ l) →
  Forall (λ c, c ∈ py "ATCG") reference →
  ∃ reads g',
    simulate_genomic_reads randint random choice flt
      reference num_reads read_length error_rate g = Ok (reads, g') ∧
    len reads ≤ Z.max 0 num_reads ∧
    ∀ r, r ∈ reads → len r = read_length ∧ Forall (λ c, c ∈ py "ATCG") r.
Proof.
  intros Hch Href. unfold simulate_genomic_reads. cbv zeta.
  match goal with |- ∃ reads g', for_each ?l ?body ?s0 = _ ∧ _ =>
    destruct (for_each_inv l body
      (λ k st, (length st.1 ≤ k)%nat ∧
               ∀ r, r ∈ st.1 → len r = read_length ∧ Forall (λ c, c ∈ py "ATCG") r) s0)
      as ([reads g'] & Hrun & Hlen & Hall) end.
  - split; [simpl; lia|]. intros r Hr. apply elem_of_nil in Hr. contradiction.
  - intros k i [reads g1] _ [Hlen Hall]. cbn [fst] in Hlen, Hall.
    unfold py_randint. rewrite decide_True by lia. rewrite bind_Ok.
    destruct (randint g1 0 (Z.max 0 (len reference - read_length))) as [start g2].
    set (read := py_slice reference start (start + read_length)).
    destruct (decide (len read = read_length)) as [Hfull|Hshort].
    + assert (Forall (λ c, c ∈ py "ATCG") read) as Hread.
      { apply Forall_forall. intros c Hc. apply py_slice_elem in Hc.
        exact (proj1 (Forall_forall _ _) Href c Hc). }
      destruct (introduce_errors_bases random choice flt error_rate read g2 Hch Hread)
        as (rl & g3 & -> & Hrl & Hrlall).
      rewrite bind_Ok. eexists. split; [reflexivity|]. cbn [fst]. split.
      * rewrite length_app. simpl. lia.
      * intros r Hr. apply elem_of_app in Hr as [Hr|Hr]; [apply Hall, Hr|].
        apply list_elem_of_singleton in Hr. subst r.
        split; [unfold len in *; lia | exact Hrlall].
    + eexists. split; [reflexivity|]. cbn [fst]. split; [lia | exact Hall].
  - exists reads, g'. split; [exact Hrun|]. cbn [fst] in Hlen, Hall.
    rewrite py_range_length in Hlen. split; [unfold len; lia | exact Hall].
Qed.

(** X24: when the reference is shorter than the read length,
    [simulate_genomic_reads] returns no read at all, whatever the
    generator draws. *)
Theorem simulate_genomic_reads_short_reference (reference : str)
    (num_reads read_length : Z) (error_rate : float) (g : rng) :
  len reference < read_length →
  ∃ g',
    simulate_genomic_reads randint random choice flt
      reference num_reads read_length error_rate g = Ok ([], g').
Proof.
  intros Hshort. unfold simulate_genomic_reads. cbv zeta.
  match goal with |- ∃ g', for_each ?l ?body ?s0 = _ =>
    destruct (for_each_inv l body (λ _ st, st.1 = []) s0)
      as ([reads g'] & Hrun & Hnil) end.
  - reflexivity.
  - intros k i [reads g1] _ Hnil. cbn [fst] in Hnil. subst reads.
    unfold py_randint. rewrite decide_True by lia. rewrite bind_Ok.
    destruct (randint g1 0 (Z.max 0 (len reference - read_length))) as [start g2].
    pose proof (py_slice_length_le reference start (start + read_length)).
    rewrite decide_False by (unfold len in *; lia).
    eexists. split; reflexivity.
  - cbn [fst] in Hnil. subst reads. exists g'. exact Hrun.
Qed.

(** X25: when no draw is below the error rate (as with [error_rate=0.0]),
    every read that [simulate_genomic_reads] returns for a reference
    without sentinel has [read_length] symbols and is found by
    [bwa_search] in the reference at least once. *)
Theorem simulate_genomic_reads_perfect (reference : str)
    (num_reads read_length : Z) (error_rate : float) (g : rng) :
  (∀ g, flt (random g).1 error_rate = false) →
  "$"%char ∉ reference → 0 < read_length →
  ∃ reads g',
    simulate_genomic_reads randint random choice flt
      reference num_reads read_length error_rate g = Ok (reads, g') ∧
    ∀ r, r ∈ reads →
      len r = read_length ∧ ∃ k, bwa_search reference r = Ok k ∧ 0 < k.
Proof.
  intros Hno Hs Hpos. unfold simulate_genomic_reads. cbv zeta.
  match goal with |- ∃ reads g', for_each ?l ?body ?s0 = _ ∧ _ =>
    destruct (for_each_inv l body
      (λ _ st, ∀ r, r ∈ st.1 →
         len r = read_length ∧ ∃ k, bwa_search reference r = Ok k ∧ 0 < k) s0)
      as ([reads g'] & Hrun & Hall) end.
  - intros r Hr. apply elem_of_nil in Hr. contradiction.
  - intros k i [reads g1] _ Hall. cbn [fst] in Hall.
    unfold py_randint. rewrite decide_True by lia. rewrite bind_Ok.
    destruct (randint g1 0 (Z.max 0 (len reference - read_length))) as [start g2].
    set (read := py_slice reference start (start + read_length)).
    destruct (decide (len read = read_length)) as [Hfull|Hshort].
    + destruct (introduce_errors_none random choice flt error_rate read g2 Hno)
        as (g3 & ->).
      rewrite bind_Ok. eexists. split; [reflexivity|]. cbn [fst].
      intros r Hr. apply elem_of_app in Hr as [Hr|Hr]; [apply Hall, Hr|].
      apply list_elem_of_singleton in Hr. subst r. split; [exact Hfull|].
      assert (read ≠ []) as Hne by (intros H; rewrite H in Hfull; unfold len in Hfull; simpl in Hfull; lia).
      assert ("$"%char ∉ read) as Hsr
        by (intros H; apply Hs; eapply py_slice_elem, H).
      destruct (bwa_search_occurs_iff reference read Hs Hne Hsr) as (n & Hn & Hiff).
      exists n. split; [exact Hn|]. apply Hiff. apply py_slice_occurs.
    + eexists. split; [reflexivity|]. exact Hall.
  - exists reads, g'. split; [exact Hrun | exact Hall].
Qed.

(** X26: a symbol that is not a base cannot take a sequencing error: when
    every draw is below the error rate and [randint] keeps within its
    bounds, a reference that holds no base at all, long enough for one
    read, makes [simulate_genomic_reads] raise [ValueError] (from
    [bases.remove]) as soon as one read is asked for. *)
Theorem simulate_genomic_reads_non_base (reference : str)
    (num_reads read_length : Z) (error_rate : float) (g : rng) :
  (∀ g, flt (random g).1 error_rate = true) →
  (∀ g a b, a ≤ b → a ≤ (randint g a b).1 ≤ b) →
  Forall (λ c, c ∉ py "ATCG") reference →
  0 < read_length ≤ len reference → 0 < num_reads →
  simulate_genomic_reads randint random choice flt
    reference num_reads read_length error_rate g = Raise ValueError.
Proof.
  intros Herr Hrand Href Hlen Hnum. unfold simulate_genomic_reads. cbv zeta.
  unfold py_range.
  destruct (Z.to_nat (num_reads - 0)) as [|m] eqn:Em; [lia|].
  simpl seq. rewrite fmap_cons. cbn [for_each].
  unfold py_randint. rewrite decide_True by lia. rewrite bind_Ok.
  pose proof (Hrand g 0 (Z.max 0 (len reference - read_length)) ltac:(lia)) as Hst.
  destruct (randint g 0 (Z.max 0 (len reference - read_length))) as [start g2].
  cbn [fst] in Hst.
  set (read := py_slice reference start (start + read_length)).
  assert (len read = read_length) as Hfull by (apply py_slice_full; lia).
  rewrite decide_True by exact Hfull.
  assert (introduce_errors random choice flt error_rate read g2 = Raise ValueError) as ->;
    [|reflexivity].
  unfold introduce_errors, py_range.
  destruct (Z.to_nat (len read - 0)) as [|n] eqn:En; [lia|].
  simpl seq. rewrite fmap_cons. cbn [for_each].
  pose proof (Herr g2) as Hg. destruct (random g2) as [x g3]. cbn [fst] in Hg.
  rewrite Hg.
  destruct (lookup_lt_is_Some_2 read 0 ltac:(unfold len in *; lia)) as [c Hc].
  replace (0 + Z.of_nat 0) with (Z.of_nat 0) by lia.
  rewrite (py_getitem_nat _ _ _ Hc), bind_Ok.
  rewrite list_remove_absent; [reflexivity|].
  apply (proj1 (Forall_forall _ _) Href).
  eapply py_slice_elem, list_elem_of_lookup_2, Hc.
Qed.

End simulated_reads.

Lemma first_choice_elem (g : unit) (l : str) : l ≠ [] → (first_choice g l).1 ∈ l.
Proof. destruct l as [|a l]; [congruence|]. intros _. left. Qed.

Lemma simulate_genomic_reads_bases_witness :
  ∃ reads g',
    simulate_genomic_reads least_randint (fixed_random 1) first_choice Z.ltb
      (py "GATTACA") 2 3 2 tt = Ok (reads, g') ∧
    len reads ≤ Z.max 0 2 ∧
    ∀ r, r ∈ reads → len r = 3 ∧ Forall (λ c, c ∈ py "ATCG") r.
Proof.
  apply simulate_genomic_reads_bases.
  - apply first_choice_elem.
  - apply (bool_decide_unpack _). vm_compute. exact I.
Defined.

Lemma simulate_genomic_reads_short_reference_witness :
  ∃ g',
    simulate_genomic_reads least_randint (fixed_random 1) first_choice Z.ltb
      (py "ACG") 3 5 0 tt = Ok ([], g').
Proof.
  apply simulate_genomic_reads_short_reference. vm_compute. reflexivity.
Defined.

Lemma simulate_genomic_reads_perfect_witness :
  ∃ reads g',
    simulate_genomic_reads least_randint (fixed_random 1) first_choice Z.ltb
      (py "GATTACA") 2 3 0 tt = Ok (reads, g') ∧
    ∀ r, r ∈ reads →
      len r = 3 ∧ ∃ k, bwa_search (py "GATTACA") r = Ok k ∧ 0 < k.
Proof.
  apply simulate_genomic_reads_perfect.
  - intros g. reflexivity.
  - apply (bool_decide_unpack _). vm_compute. exact I.
  - lia.
Defined.

Lemma simulate_genomic_reads_non_base_witness :
  simulate_genomic_reads least_randint (fixed_random 1) first_choice Z.ltb
    (py "NNNN") 1 2 2 tt = Raise ValueError.
Proof.
  apply simulate_genomic_reads_non_base.
  - intros g. reflexivity.
  - intros g a b Hab. simpl. lia.
  - apply (bool_decide_unpack _). vm_compute. exact I.
  - unfold len. simpl. lia.
  - lia.
Defined.

(** With this generator: two error-free reads, and two reads whose every
    base is replaced. *)
Example simulate_genomic_reads_runs :
  simulate_genomic_reads least_randint (fixed_random 1) first_choice Z.ltb
    (py "GATTACA") 2 3 0 tt = Ok ([py "GAT"; py "GAT"], tt) ∧
  simulate_genomic_reads least_randint (fixed_random 1) first_choice Z.ltb
    (py "GATTACA") 2 3 2 tt = Ok ([py "ATA"; py "ATA"], tt).
Proof. split; vm_compute; reflexivity. Qed.

(** ** Search for patterns without the sentinel *)

(** X27: on a text without sentinel and a non-empty pattern without
    sentinel, [bwa_search] returns the number of start offsets [i] with
    [text[i:i+len(pattern)] == pattern], overlapping occurrences
    included. *)
Theorem bwa_search_counts_occurrences (S P : str) :
  "$"%char ∉ S → P ≠ [] → "$"%char ∉ P →
  bwa_search S P = Ok (naive_count S P).
Proof.
  intros HS HP HsP. rewrite bwa_search_spec by exact HS.
  rewrite count_rows_naive by assumption. reflexivity.
Qed.

Lemma bwa_search_counts_occurrences_witness :
  bwa_search (py "ATCGATCGATCG") (py "ATCG")
  = Ok (naive_count (py "ATCGATCGATCG") (py "ATCG")).
Proof.
  apply bwa_search_counts_occurrences.
  - apply (bool_decide_unpack _). vm_compute. exact I.
  - discriminate.
  - apply (bool_decide_unpack _). vm_compute. exact I.
Defined.

(** X28: on a text without sentinel, a pattern that holds a symbol which
    is neither in the text nor the sentinel is found 0 times. *)
Theorem bwa_search_absent_symbol (S P : str) (c : ascii) :
  "$"%char ∉ S → c ∈ P → c ∉ S → c ≠ "$"%char →
  bwa_search S P = Ok 0.
Proof.
  intros HS HcP HcS Hc. rewrite bwa_search_spec by exact HS.
  assert (count (cyc_match P) (rows S) = 0%nat) as ->; [|reflexivity].
  apply count_false, Forall_forall. intros x Hx.
  destruct (cyc_match P x) eqn:E; [|reflexivity]. exfalso.
  pose proof (cyc_match_elem P x c E HcP) as Hcx.
  apply rows_elem in Hx as (i & _ & ->). apply rot_elem in Hcx.
  apply elem_of_app in Hcx as [Hcx|Hcx]; [exact (HcS Hcx)|].
  apply list_elem_of_singleton in Hcx. exact (Hc Hcx).
Qed.

Lemma bwa_search_absent_symbol_witness :
  bwa_search (py "ABCD") (py "XYZ") = Ok 0.
Proof.
  apply (bwa_search_absent_symbol (py "ABCD") (py "XYZ") "Y"%char).
  - apply (bool_decide_unpack _). vm_compute. exact I.
  - apply (bool_decide_unpack _). vm_compute. exact I.
  - apply (bool_decide_unpack _). vm_compute. exact I.
  - discriminate.
Defined.
